(** * disk-hog-backup (Go): a shallow embedding of the backup-set code

    The Go program works on the file system through [os.Mkdir],
    [os.MkdirAll], [os.Link], [os.Open], [os.Create], [io.Copy] and
    [ioutil.ReadDir].  The file system is modelled as a map from paths
    (lists of path components, [filepath.Join a b] being [a ++ [b]]) to
    nodes (a directory, or a regular file naming its inode) together with
    the contents of every inode, so that hard links share contents.
    [log.Fatal] ends the process: it is the [Fatal] outcome of the state
    monad below.  Permissions are modelled for file inodes only: directory
    permissions, cross-device links ([EXDEV]) and refused links are not, so
    a primitive here fails on fewer states than the real one would. *)

From Stdlib Require Import Ascii ZArith.
From Stdlib Require Strings.String.
From Stdlib Require Import Sorting.Sorted.
From stdpp Require Import base gmap strings list.

Abbreviation path := (list string).

(** ** File-system state *)

Inductive node :=
  | NDir
  | NFile (ino : nat).

#[global] Instance node_eq_dec : EqDecision node.
Proof. solve_decision. Defined.

(** Errors returned by the [os] primitives (the [syscall] errno values). *)
Inductive error :=
  | ENOENT | EEXIST | ENOTDIR | EISDIR | EPERM | EACCES.

Record fs := mkfs {
  tree : gmap path node;      (** every existing path *)
  data : gmap nat string;     (** contents of every inode *)
  noread : gset nat;          (** inodes whose mode forbids reading *)
  next_ino : nat              (** the next inode number to allocate *)
}.

Definition set_tree (m : gmap path node) (s : fs) : fs :=
  mkfs m (data s) (noread s) (next_ino s).
Definition set_data (d : gmap nat string) (s : fs) : fs :=
  mkfs (tree s) d (noread s) (next_ino s).

(** ** The state monad of a Go process *)

Inductive outcome (A : Type) :=
  | Done (a : A) (s : fs)
  | Fatal (s : fs)          (** [log.Fatal]: the process exits *)
  | OutOfFuel (s : fs).     (** the recursion did not terminate *)
Arguments Done {A} a s.
Arguments Fatal {A} s.
Arguments OutOfFuel {A} s.

Definition M (A : Type) := fs -> outcome A.

Definition ret {A} (a : A) : M A := fun s => Done a s.
Definition fatal {A} : M A := fun s => Fatal s.
Definition out_of_fuel {A} : M A := fun s => OutOfFuel s.
Definition bind {A B} (m : M A) (k : A -> M B) : M B :=
  fun s => match m s with
           | Done a s' => k a s'
           | Fatal s' => Fatal s'
           | OutOfFuel s' => OutOfFuel s'
           end.
Definition get : M fs := fun s => Done s s.

Declare Scope go_scope.
Delimit Scope go_scope with go.
Notation "x <- m ;; k" := (bind m (fun x => k))
  (at level 100, m at next level, right associativity) : go_scope.
Notation "m ;;; k" := (bind m (fun _ => k))
  (at level 100, right associativity) : go_scope.
Open Scope go_scope.

(** Go's [(value, err)] pair. *)
Inductive result (A : Type) :=
  | Ok (a : A)
  | Err (e : error).
Arguments Ok {A} a.
Arguments Err {A} e.

(** ** Paths *)

Fixpoint strip_prefix (p k : path) : option path :=
  match p, k with
  | [], _ => Some k
  | a :: p', b :: k' => if String.eqb a b then strip_prefix p' k' else None
  | _ :: _, [] => None
  end.

(** [k] is [p ++ [n]]: the name [n] of an entry of directory [p]. *)
Definition child_name (p k : path) : option string :=
  match strip_prefix p k with
  | Some [n] => Some n
  | _ => None
  end.

Definition is_child (p k : path) : bool :=
  match child_name p k with Some _ => true | None => false end.

Definition parent (p : path) : path := removelast p.

(** ** [ioutil.ReadDir]: the entries of a directory sorted by name *)

Record entry := mkentry { e_name : string; e_dir : bool }.

Definition is_dir (v : node) : bool :=
  match v with NDir => true | NFile _ => false end.

Fixpoint insert_entry (e : entry) (l : list entry) : list entry :=
  match l with
  | [] => [e]
  | x :: l' => if String.leb (e_name e) (e_name x) then e :: x :: l'
               else x :: insert_entry e l'
  end.

Fixpoint sort_entries (l : list entry) : list entry :=
  match l with
  | [] => []
  | e :: l' => insert_entry e (sort_entries l')
  end.

Definition children_keys (p : path) (m : gmap path node) : gset path :=
  filter (fun k => is_child p k = true) (dom m).

Definition entry_of (p : path) (m : gmap path node) (k : path) : option entry :=
  match child_name p k, m !! k with
  | Some n, Some v => Some (mkentry n (is_dir v))
  | _, _ => None
  end.

Definition ReadDir (p : path) (s : fs) : result (list entry) :=
  match tree s !! p with
  | Some NDir =>
      Ok (sort_entries (omap (entry_of p (tree s)) (elements (children_keys p (tree s)))))
  | Some (NFile _) => Err ENOTDIR
  | None => Err ENOENT
  end.

(** ** [os] primitives *)

(** [os.Mkdir]: fails if the path exists or its parent is not a directory. *)
Definition Mkdir (p : path) : M (option error) :=
  fun s =>
    match p with
    | [] => Done (Some EEXIST) s
    | _ =>
      match tree s !! p with
      | Some _ => Done (Some EEXIST) s
      | None =>
        match tree s !! parent p with
        | Some NDir => Done None (set_tree (<[p := NDir]> (tree s)) s)
        | Some (NFile _) => Done (Some ENOTDIR) s
        | None => Done (Some ENOENT) s
        end
      end
    end.

(** The last step of [os.MkdirAll]: [Mkdir], and on failure accept a
    directory that [Lstat] then finds. *)
Definition mkdir_checked (p : path) : M (option error) :=
  e <- Mkdir p ;;
  match e with
  | None => ret None
  | Some e => fun s' => match tree s' !! p with
                        | Some NDir => Done None s'
                        | _ => Done (Some e) s'
                        end
  end.

(** [os.MkdirAll]: nothing to do on an existing directory, [ENOTDIR] on an
    existing file, otherwise the parent first (unless it is the root), then
    [mkdir_checked]. *)
Fixpoint mkdir_all_aux (n : nat) (p : path) : M (option error) :=
  fun s =>
    match tree s !! p with
    | Some NDir => Done None s
    | Some (NFile _) => Done (Some ENOTDIR) s
    | None =>
      match n with
      | 0 => mkdir_checked p s
      | S n' =>
        match parent p with
        | [] => mkdir_checked p s
        | q => (e <- mkdir_all_aux n' q ;;
                match e with Some e => ret (Some e) | None => mkdir_checked p end) s
        end
      end
    end.

Definition MkdirAll (p : path) : M (option error) := mkdir_all_aux (length p) p.

(** [os.Link oldname newname]. *)
Definition Link (a b : path) : M (option error) :=
  fun s =>
    match tree s !! a with
    | None => Done (Some ENOENT) s
    | Some NDir => Done (Some EPERM) s
    | Some (NFile i) =>
      match tree s !! b with
      | Some _ => Done (Some EEXIST) s
      | None =>
        match b, tree s !! parent b with
        | _ :: _, Some NDir => Done None (set_tree (<[b := NFile i]> (tree s)) s)
        | _, Some (NFile _) => Done (Some ENOTDIR) s
        | _, _ => Done (Some ENOENT) s
        end
      end
    end.

(** An open file: [os.Open] also opens directories. *)
Inductive handle :=
  | HFile (ino : nat)
  | HDir.

Definition Open (p : path) (s : fs) : result handle :=
  match tree s !! p with
  | Some (NFile i) => if decide (i ∈ noread s) then Err EACCES else Ok (HFile i)
  | Some NDir => Ok HDir
  | None => Err ENOENT
  end.

(** [os.Create]: opens for reading and writing, so an existing file whose
    inode may not be read is refused; otherwise truncates an existing file
    (keeping its inode, so every hard link to it sees the truncation) or
    creates a new inode. *)
Definition Create (p : path) : M (result nat) :=
  fun s =>
    match tree s !! p with
    | Some (NFile j) =>
      if decide (j ∈ noread s) then Done (Err EACCES) s
      else Done (Ok j) (set_data (<[j := String.EmptyString]> (data s)) s)
    | Some NDir => Done (Err EISDIR) s
    | None =>
      match p, tree s !! parent p with
      | _ :: _, Some NDir =>
        let j := next_ino s in
        Done (Ok j) (mkfs (<[p := NFile j]> (tree s)) (<[j := String.EmptyString]> (data s))
                          (noread s) (S j))
      | _, Some (NFile _) => Done (Err ENOTDIR) s
      | _, _ => Done (Err ENOENT) s
      end
    end.

Definition contents (i : nat) (s : fs) : string := default String.EmptyString (data s !! i).

(** [io.Copy(destFile, srcFile)] into a freshly truncated destination. *)
Definition Copy (dst : nat) (h : handle) : M (result nat) :=
  fun s =>
    match h with
    | HDir => Done (Err EISDIR) s
    | HFile i =>
      let c := contents i s in
      Done (Ok (String.length c)) (set_data (<[dst := c]> (data s)) s)
    end.

(** A recursion budget for the directory walks: one more than the longest
    path, which bounds the depth of every walk that terminates in Go. *)
Definition walk_fuel (s : fs) : nat :=
  S (foldr (fun k acc => Nat.max (length k) acc) 0 (elements (dom (tree s)))).

(** ** [fmt.Sprintf] with a [%0Nd] verb *)

Definition digit_char (d : N) : ascii := ascii_of_N (48 + d).

Fixpoint decimal_aux (fuel : nat) (n : N) (acc : string) : string :=
  match fuel with
  | 0 => acc
  | S f =>
    let acc' := String.String (digit_char (n mod 10)) acc in
    if (n <? 10)%N then acc' else decimal_aux f (n / 10)%N acc'
  end.

(** The decimal digits of [n], without leading zeros ("0" for zero). *)
Definition decimal (n : N) : string := decimal_aux (S (N.size_nat n)) n String.EmptyString.

Fixpoint zeros (k : nat) : string :=
  match k with 0 => String.EmptyString | S k' => String.String "0" (zeros k') end.

Definition pad_zero (w : nat) (s : string) : string :=
  String.append (zeros (w - String.length s)) s.

(** [%0wd]: the sign takes one column of the width, zeros follow it. *)
Definition fmt_0d (w : nat) (z : Z) : string :=
  if (z <? 0)%Z then String.String "-" (pad_zero (w - 1) (decimal (Z.to_N (- z))))
  else pad_zero w (decimal (Z.to_N z)).

(** ** Set naming: [set_namer.go] and [IsBackupSetName] *)

(** The calendar fields of a Go [time.Time], as its accessors return them. *)
Record time := mktime {
  Year : Z; Month : Z; Day : Z; Hour : Z; Minute : Z; Second : Z }.

Definition GenerateName (getTime : unit -> time) : string :=
  let t := getTime tt in
  String.append "dhb-set-"
   (String.append (fmt_0d 4 (Year t))
   (String.append (fmt_0d 2 (Month t))
   (String.append (fmt_0d 2 (Day t))
   (String.append "-"
   (String.append (fmt_0d 2 (Hour t))
   (String.append (fmt_0d 2 (Minute t)) (fmt_0d 2 (Second t)))))))).

(** Matching [^dhb-set-[0-9]{8}-[0-9]{6}$], one piece of the regexp at a
    time; each step returns the rest of the input. *)
Fixpoint match_lit (lit s : string) : option string :=
  match lit, s with
  | String.EmptyString, _ => Some s
  | String.String a lit', String.String b s' =>
      if Ascii.eqb a b then match_lit lit' s' else None
  | _, _ => None
  end.

Definition is_digit (c : ascii) : bool :=
  (48 <=? nat_of_ascii c) && (nat_of_ascii c <=? 57).

Fixpoint match_digits (n : nat) (s : string) : option string :=
  match n, s with
  | 0, _ => Some s
  | S n', String.String c s' => if is_digit c then match_digits n' s' else None
  | S _, String.EmptyString => None
  end.

Definition match_end (s : string) : bool :=
  match s with String.EmptyString => true | _ => false end.

Definition IsBackupSetName (name : string) : bool :=
  match match_lit "dhb-set-" name with
  | Some r1 =>
    match match_digits 8 r1 with
    | Some r2 =>
      match match_lit "-" r2 with
      | Some r3 =>
        match match_digits 6 r3 with
        | Some r4 => match_end r4
        | None => false
        end
      | None => false
      end
    | None => false
    end
  | None => false
  end.

(** ** [backup_set.go] *)

Definition CreateEmptySet (dest : path) (getTime : unit -> time)
  : M (string * option error) :=
  let setName := GenerateName getTime in
  let destFolder := dest ++ [setName] in
  err <- MkdirAll destFolder ;;
  ret (setName, err).

(** [FindLatestSet] only reads the file system. *)
Definition FindLatestSet (dest : path) (s : fs) : result string :=
  match ReadDir dest s with
  | Err e => Err e
  | Ok contents =>
    let backupSets := filter (fun info => IsBackupSetName (e_name info) = true) contents in
    match backupSets with
    | [] => Ok String.EmptyString
    | _ => Ok (e_name (List.last backupSets (mkentry String.EmptyString false)))
    end
  end.

(** ** [copy_file.go] and [copy_folder.go] *)

Definition CopyFile (source dest : path) : M unit :=
  s <- get ;;
  match Open source s with
  | Err _ => fatal
  | Ok srcFile =>
    c <- Create dest ;;
    match c with
    | Err _ => fatal
    | Ok destFile =>
      w <- Copy destFile srcFile ;;
      match w with
      | Err _ => fatal
      | Ok _ => ret tt
      end
    end
  end.

(** The [for _, item := range contents] loop of [CopyFolder]; [rec] is the
    recursive call. *)
Fixpoint copy_items (rec : path -> path -> M (option error))
    (source dest : path) (items : list entry) : M (option error) :=
  match items with
  | [] => ret None
  | item :: rest =>
    let n := e_name item in
    if e_dir item then
      e <- Mkdir (dest ++ [n]) ;;
      match e with
      | Some _ => fatal
      | None =>
        r <- rec (source ++ [n]) (dest ++ [n]) ;;
        match r with
        | Some err => ret (Some err)
        | None => copy_items rec source dest rest
        end
      end
    else
      CopyFile (source ++ [n]) (dest ++ [n]) ;;;
      copy_items rec source dest rest
  end.

Fixpoint CopyFolder (fuel : nat) (source dest : path) : M (option error) :=
  match fuel with
  | 0 => out_of_fuel
  | S fuel' =>
    s <- get ;;
    match ReadDir source s with
    | Err _ => fatal
    | Ok contents => copy_items (CopyFolder fuel') source dest contents
    end
  end.

(** ** [HardLinkCopy] (hard_linker) *)

Fixpoint link_items (rec : path -> path -> M (option error))
    (source dest : path) (items : list entry) : M (option error) :=
  match items with
  | [] => ret None
  | item :: rest =>
    let n := e_name item in
    if e_dir item then
      e <- Mkdir (dest ++ [n]) ;;
      match e with
      | Some _ => fatal
      | None =>
        r <- rec (source ++ [n]) (dest ++ [n]) ;;
        match r with
        | Some err => ret (Some err)
        | None => link_items rec source dest rest
        end
      end
    else
      e <- Link (source ++ [n]) (dest ++ [n]) ;;
      match e with
      | Some err => ret (Some err)
      | None => link_items rec source dest rest
      end
  end.

Fixpoint HardLinkCopy (fuel : nat) (source dest : path) : M (option error) :=
  match fuel with
  | 0 => out_of_fuel
  | S fuel' =>
    s <- get ;;
    match ReadDir source s with
    | Err _ => fatal
    | Ok contents => link_items (HardLinkCopy fuel') source dest contents
    end
  end.

(** ** [backup.go] *)

Definition Backup (source dest : path) (getTime : unit -> time)
  : M (string * option error) :=
  e <- MkdirAll dest ;;
  match e with
  | Some _ => fatal
  | None =>
    s <- get ;;
    match FindLatestSet dest s with
    | Err _ => fatal
    | Ok lastSetName =>
      r <- CreateEmptySet dest getTime ;;
      match r with
      | (_, Some _) => fatal
      | (setName, None) =>
        let destFolder := dest ++ [setName] in
        (if String.eqb lastSetName String.EmptyString then ret None
         else s1 <- get ;;
              HardLinkCopy (walk_fuel s1) (dest ++ [lastSetName]) destFolder) ;;;
        s2 <- get ;;
        err <- CopyFolder (walk_fuel s2) source destFolder ;;
        ret (setName, err)
      end
    end
  end.

(** ** Earlier versions kept in the repository *)

(** [backup.go.go]: [Backup] before hard-linking.  Its clock is
    [time.Now], passed here as [now]; the [dhcopy.CopyFolder] it calls is
    the one returning an error. *)
Module BackupV0.

Definition Backup (source dest : path) (now : unit -> time) : M (string * option error) :=
  e <- MkdirAll dest ;;
  match e with
  | Some _ => fatal
  | None =>
    r <- CreateEmptySet dest now ;;
    match r with
    | (_, Some _) => fatal
    | (setName, None) =>
      let destFolder := dest ++ [setName] in
      s2 <- get ;;
      err <- CopyFolder (walk_fuel s2) source destFolder ;;
      ret (setName, err)
    end
  end.

End BackupV0.

(** The second [CopyFolder] of [copy_folder.go]: one [os.Mkdir] per
    subfolder of [source], fatal on error; files and the recursive call
    are commented out.  (Permission bits such as its [0666] are not part of
    the model.) *)
Module DraftCopyFolder.

Fixpoint make_dirs (dest : path) (items : list entry) : M unit :=
  match items with
  | [] => ret tt
  | item :: rest =>
    if e_dir item then
      err <- Mkdir (dest ++ [e_name item]) ;;
      match err with
      | Some _ => fatal
      | None => make_dirs dest rest
      end
    else make_dirs dest rest
  end.

Definition CopyFolder (source dest : path) : M unit :=
  s <- get ;;
  match ReadDir source s with
  | Err _ => fatal
  | Ok contents => make_dirs dest contents
  end.

End DraftCopyFolder.

(** [diskhog.go]: the first [backup], copying the top level of [source]
    into [dest]; [copyFolder] ignores the error of [os.Mkdir]. *)
Module DiskHog.





End DiskHog.

(** ** [test_helpers.go] *)
Module TestHelpers.

(** [readContents]: [ioutil.ReadFile] opens the path with [os.Open] and
    reads it whole; reading a directory fails with [EISDIR]. *)
Definition readContents (path : path) (s : fs) : result string :=
  match Open path s with
  | Err e => Err e
  | Ok (HFile i) => Ok (contents i s)
  | Ok HDir => Err EISDIR
  end.

Definition FileContentsMatches (file1Path file2Path : path) (s : fs) : bool * option error :=
  match readContents file1Path s with
  | Err err => (false, Some err)
  | Ok file1Contents =>
    match readContents file2Path s with
    | Err err => (false, Some err)
    | Ok file2Contents => (String.eqb file1Contents file2Contents, None)
    end
  end.

End TestHelpers.

(** ** Observations on a final state *)

Definition final {A} (o : outcome A) : fs :=
  match o with Done _ s | Fatal s | OutOfFuel s => s end.

Definition is_done {A} (o : outcome A) : bool :=
  match o with Done _ _ => true | _ => false end.

Definition is_fatal {A} (o : outcome A) : bool :=
  match o with Fatal _ => true | _ => false end.

(** The contents read through path [p], if it is a regular file. *)
Definition file_at (p : path) (s : fs) : option string :=
  match tree s !! p with
  | Some (NFile i) => Some (contents i s)
  | _ => None
  end.

(** [os.SameFile] on the [os.Stat] of two paths: the same inode. *)
Definition same_file (p q : path) (s : fs) : bool :=
  match tree s !! p, tree s !! q with
  | Some (NFile i), Some (NFile j) => Nat.eqb i j
  | _, _ => false
  end.

(** [ioutil.WriteFile] as the test helpers use it to make or change a
    source file. *)
Definition WriteFile (p : path) (body : string) : M unit :=
  c <- Create p ;;
  match c with
  | Err _ => fatal
  | Ok j => fun s => Done tt (set_data (<[j := body]> (data s)) s)
  end.

(** The manifest file name a set would carry (see the spec's layout). *)
Definition manifest_name : string := "disk-hog-backup-hashes.md5".

(** ** Concrete runs, after the repository's tests *)
Module Scenario.

Definition at_time (y mo d h mi se : Z) : unit -> time :=
  fun _ => mktime y mo d h mi se.

Definition root_fs : fs :=
  mkfs (<[["src"] := NDir]> (<[["backups"] := NDir]> (<[[] := NDir]> ∅))) ∅ ∅ 0.

(** A source holding [linkme.txt = "hello go"] (TestHardLinksSecondBackup
    without the deep folder). *)
Definition linkme_fs : fs :=
  final (WriteFile ["src"; "linkme.txt"] "hello go" root_fs).

(** The same with the deep folder [thats/deep/testfile.txt] that the
    test's [createSource] also makes. *)
Definition deep_fs : fs :=
  final ((Mkdir ["src"; "thats"] ;;;
          Mkdir ["src"; "thats"; "deep"] ;;;
          WriteFile ["src"; "thats"; "deep"; "testfile.txt"] "backmeup susie" ;;;
          WriteFile ["src"; "linkme.txt"] "hello go") root_fs).

Definition t1 := at_time 2020 1 1 0 59 0.   (* 2019-12-31 23:59 + 1h *)
Definition t2 := at_time 2020 1 1 1 59 0.   (* + 2h *)
Definition set1 : path := ["backups"; GenerateName t1].
Definition set2 : path := ["backups"; GenerateName t2].

Definition two_runs : M (string * option error) :=
  Backup ["src"] ["backups"] t1 ;;; Backup ["src"] ["backups"] t2.

Definition two_runs_changed : M (string * option error) :=
  Backup ["src"] ["backups"] t1 ;;;
  WriteFile ["src"; "linkme.txt"] "hello again" ;;;
  Backup ["src"] ["backups"] t2.

(** A fresh destination and a single [testfile.txt]. *)
Definition t2024 := at_time 2024 1 1 0 0 0.
Definition single_fs : fs :=
  final (WriteFile ["src"; "testfile.txt"] "backmeup susie
" root_fs).

(** A source whose first file cannot be opened (mode without read
    permission) followed by a readable one. *)
Definition unreadable_fs : fs :=
  let s := final ((WriteFile ["src"; "a.txt"] "secret" ;;;
                   WriteFile ["src"; "b.txt"] "public") root_fs) in
  mkfs (tree s) (data s) {[0]} (next_ino s).

(** TestFindLatestSet: three sets created out of order (+1s, +3s, +2s
    after 2019-12-31 23:59:00), plus a folder that is not a set. *)
Definition find_latest_fs : fs :=
  final ((CreateEmptySet ["backups"] (at_time 2019 12 31 23 59 1) ;;;
         CreateEmptySet ["backups"] (at_time 2019 12 31 23 59 3) ;;;
         CreateEmptySet ["backups"] (at_time 2019 12 31 23 59 2) ;;;
         Mkdir ["backups"; "this-is-not-a-backup-set"]) root_fs).

(** The state the second run of TestHardLinksSecondBackup reaches just
    before [HardLinkCopy]: the first set made, the second one created. *)
Definition before_link_fs : fs :=
  final ((Backup ["src"] ["backups"] t1 ;;; CreateEmptySet ["backups"] t2) deep_fs).

(** The source of the content-change scenario just before the second run:
    the first set made, then [linkme.txt] rewritten. *)
Definition changed_fs : fs :=
  final ((Backup ["src"] ["backups"] t1 ;;;
          WriteFile ["src"; "linkme.txt"] "hello again") linkme_fs).

End Scenario.

(** ** Fixed-width digits, as the spec writes a set name *)

Definition digitZ (z : Z) : ascii := digit_char (Z.to_N (z mod 10)).
Arguments digitZ : simpl never.

Definition digits2 (z : Z) : string :=
  String.String (digitZ (z / 10)) (String.String (digitZ z) String.EmptyString).
Definition digits4 (z : Z) : string :=
  String.String (digitZ (z / 1000)) (String.String (digitZ (z / 100))
    (String.String (digitZ (z / 10)) (String.String (digitZ z) String.EmptyString))).

(** [dhb-set-YYYYMMDD-hhmmss] for a time. *)
Definition spec_set_name (t : time) : string :=
  String.append "dhb-set-"
   (String.append (digits4 (Year t))
   (String.append (digits2 (Month t))
   (String.append (digits2 (Day t))
   (String.append "-"
   (String.append (digits2 (Hour t))
   (String.append (digits2 (Minute t)) (digits2 (Second t)))))))).

(** The ranges of the [time.Time] accessors other than [Year]. *)
Definition clock_fields_in_range (t : time) : Prop :=
  (1 <= Month t <= 12 /\ 1 <= Day t <= 31 /\ 0 <= Hour t <= 23 /\
   0 <= Minute t <= 59 /\ 0 <= Second t <= 59)%Z.

Definition check_width (w : nat) (spec : Z -> string) (bound : Z) : bool :=
  forallb (fun n => String.eqb (fmt_0d w (Z.of_nat n)) (spec (Z.of_nat n)))
    (seq 0 (Z.to_nat bound)).

(** ** Notions used by the proofs *)

(** The order [ioutil.ReadDir] sorts by. *)
Definition name_le (a b : entry) : Prop := String.leb (e_name a) (e_name b) = true.

Fixpoint prefixb (p q : path) : bool :=
  match p, q with
  | [], _ => true
  | a :: p', b :: q' => String.eqb a b && prefixb p' q'
  | _ :: _, [] => false
  end.

(** Neither path lies inside the other (as [dest/set1] and [dest/set2]). *)
Definition disjoint_paths (p q : path) : bool := negb (prefixb p q) && negb (prefixb q p).

Definition apart (p q : path) : Prop := forall r r', p ++ r <> q ++ r'.

(** A well-formed file system: every path but the root lies in a directory,
    and every inode in use is below [next_ino]. *)
Definition wf_fs (s : fs) : bool :=
  forallb (fun kv : path * node =>
    match kv.1 with
    | [] => true
    | _ => match tree s !! parent kv.1 with Some NDir => true | _ => false end
    end &&
    match kv.2 with NFile i => Nat.ltb i (next_ino s) | NDir => true end)
    (map_to_list (tree s)).

Definition wellformed (s : fs) : Prop :=
  (forall k v, tree s !! k = Some v -> k <> [] -> tree s !! parent k = Some NDir) /\
  (forall k i, tree s !! k = Some (NFile i) -> i < next_ino s).

(** A step that only adds paths, all below [d], and touches no contents. *)
Record links_under (d : path) (s s' : fs) : Prop := {
  lu_frame : forall k, (forall r, k <> d ++ r) -> tree s' !! k = tree s !! k;
  lu_mono : forall k v, tree s !! k = Some v -> tree s' !! k = Some v;
  lu_data : data s' = data s;
  lu_noread : noread s' = noread s;
  lu_next : next_ino s' = next_ino s
}.

(** What [HardLinkCopy src dst] achieves from [s] to [s']. *)
Definition links_cov (src dst : path) (s s' : fs) : Prop :=
  (forall r i, tree s !! (src ++ r) = Some (NFile i) -> tree s' !! (dst ++ r) = Some (NFile i)) /\
  (forall r, r <> [] -> tree s !! (src ++ r) = Some NDir ->
     tree s !! (dst ++ r) = None /\ tree s' !! (dst ++ r) = Some NDir).

(** The same for the entry [n] of [src], processed between [s1] and [s']
    of a loop that lists [src] in [s0]. *)
Definition link_item_cov (src dst : path) (s0 s1 s' : fs) (n : string) : Prop :=
  (forall r i, tree s0 !! (src ++ n :: r) = Some (NFile i) ->
     tree s' !! (dst ++ n :: r) = Some (NFile i)) /\
  (forall r, tree s0 !! (src ++ n :: r) = Some NDir ->
     tree s1 !! (dst ++ n :: r) = None /\ tree s' !! (dst ++ n :: r) = Some NDir).

(** Paths below [d], and paths below the entries [ns] of [d]. *)
Definition under (d k : path) : Prop := exists r, k = d ++ r.
Definition under_names (d : path) (ns : list string) (k : path) : Prop :=
  exists n r, In n ns /\ k = d ++ n :: r.

(** A step that changes paths in [R] only, never removes one, changes the
    contents of inodes of files in [R] only, and gives new files fresh,
    pairwise distinct inodes. *)
Record copies_in (R : path -> Prop) (s s' : fs) : Prop := {
  ci_frame : forall k, ~ R k -> tree s' !! k = tree s !! k;
  ci_mono : forall k v, tree s !! k = Some v -> tree s' !! k = Some v;
  ci_data : forall j, data s' !! j <> data s !! j ->
              exists k, R k /\ tree s' !! k = Some (NFile j);
  ci_noread : noread s' = noread s;
  ci_next : next_ino s <= next_ino s';
  ci_new : forall k j, tree s' !! k = Some (NFile j) ->
             tree s !! k = Some (NFile j) \/ (tree s !! k = None /\ next_ino s <= j);
  ci_newinj : forall k1 k2 j, tree s' !! k1 = Some (NFile j) -> tree s' !! k2 = Some (NFile j) ->
                next_ino s <= j -> k1 = k2
}.

(** No two files under [dst] are links to one inode, and no file under
    [dst] is a link to a file under [src]. *)
Definition excl (src dst : path) (s : fs) : Prop :=
  (forall r1 r2 j, tree s !! (dst ++ r1) = Some (NFile j) ->
     tree s !! (dst ++ r2) = Some (NFile j) -> r1 = r2) /\
  (forall r1 r2 j, tree s !! (dst ++ r1) = Some (NFile j) ->
     tree s !! (src ++ r2) = Some (NFile j) -> False).

(** What [CopyFolder src dst] achieves from [s] to [s']. *)
Definition copy_cov (src dst : path) (s s' : fs) : Prop :=
  forall r i, tree s !! (src ++ r) = Some (NFile i) ->
    exists j, tree s' !! (dst ++ r) = Some (NFile j) /\ contents j s' = contents i s.

Definition copy_item_cov (src dst : path) (s0 s' : fs) (n : string) : Prop :=
  forall r i, tree s0 !! (src ++ n :: r) = Some (NFile i) ->
    exists j, tree s' !! (dst ++ n :: r) = Some (NFile j) /\ contents j s' = contents i s0.

(** Every file of [s'] is a file of [s], or a copy at [dst/r] of a file at [src/r]. *)
Definition copy_origin (src dst : path) (s s' : fs) : Prop :=
  forall k j, tree s' !! k = Some (NFile j) -> tree s !! k = Some (NFile j) \/
    exists r i, k = dst ++ r /\ tree s !! (src ++ r) = Some (NFile i).

(** Every file of [s'] is a file of [s], or a link at [dst/r] to the file at [src/r]. *)
Definition links_origin (src dst : path) (s s' : fs) : Prop :=
  forall k j, tree s' !! k = Some (NFile j) -> tree s !! k = Some (NFile j) \/
    exists r, k = dst ++ r /\ tree s !! (src ++ r) = Some (NFile j).

(** The regular files below [d], by relative path, with their inodes. *)
Definition files_under (d : path) (s : fs) : list (path * nat) :=
  omap (fun kv : path * node =>
    match kv.2, strip_prefix d kv.1 with
    | NFile j, Some r => Some (r, j)
    | _, _ => None
    end) (map_to_list (tree s)).

(** No regular file below [d] is a link to one below [e]. *)
Definition no_shared_inode (d e : path) (s : fs) : bool :=
  forallb (fun a : path * nat =>
    forallb (fun b : path * nat => negb (Nat.eqb a.2 b.2)) (files_under e s))
    (files_under d s).

(** Within each entry of [d] (each backup set), no two paths are links to
    one inode. *)
Definition sets_link_free (d : path) (s : fs) : bool :=
  forallb (fun a : path * nat =>
    forallb (fun b : path * nat =>
      negb (Nat.eqb a.2 b.2) || negb (bool_decide (head a.1 = head b.1)) ||
      bool_decide (a.1 = b.1)) (files_under d s))
    (files_under d s).

(** A string of decimal digits only. *)
Fixpoint all_digits (s : string) : bool :=
  match s with
  | String.EmptyString => true
  | String.String c s' => is_digit c && all_digits s'
  end.

(** The calendar fields of a time as one number, [YYYYMMDDhhmmss] when
    the fields are in range: its order is the order of the times. *)
Definition time_key (t : time) : Z :=
  (((((Year t * 100 + Month t) * 100 + Day t) * 100 + Hour t) * 100 + Minute t) * 100
   + Second t)%Z.

(** * Proofs *)

Module ScenarioFacts.
Import Scenario.

(** C1: after a second run over a changed source, the file of the FIRST
    set reads the new content (the second run truncated and rewrote the
    inode it shares with the first set). *)
Lemma second_run_rewrites_first_set :
  file_at (set1 ++ ["linkme.txt"]) (final (Backup ["src"] ["backups"] t1 linkme_fs))
    = Some "hello go"%string /\
  is_done (two_runs_changed linkme_fs) = true /\
  file_at (set1 ++ ["linkme.txt"]) (final (two_runs_changed linkme_fs))
    = Some "hello again"%string.
Proof. vm_compute. repeat split. Qed.

(** C2: after the content change the two sets' files are still one inode,
    and the second set holds no manifest file. *)
Lemma changed_file_still_linked_no_manifest :
  is_done (two_runs_changed linkme_fs) = true /\
  file_at (set2 ++ ["linkme.txt"]) (final (two_runs_changed linkme_fs))
    = Some "hello again"%string /\
  same_file (set1 ++ ["linkme.txt"]) (set2 ++ ["linkme.txt"])
    (final (two_runs_changed linkme_fs)) = true /\
  tree (final (two_runs_changed linkme_fs)) !! (set2 ++ [manifest_name]) = None.
Proof. vm_compute. repeat split. Qed.

(** C3: with the [thats/deep] folder of the test's source, the first run
    completes and the second ends in [log.Fatal] ([os.Mkdir] of a folder
    [HardLinkCopy] already made). *)
Lemma second_run_with_subfolder_is_fatal :
  is_done (Backup ["src"] ["backups"] t1 deep_fs) = true /\
  is_fatal (two_runs deep_fs) = true.
Proof. vm_compute. split; reflexivity. Qed.

(** C4: the fresh set holds [testfile.txt] with its body and nothing
    else: no manifest. *)
Lemma fresh_set_has_no_manifest :
  is_done (Backup ["src"] ["backups"] t2024 single_fs) = true /\
  GenerateName t2024 = "dhb-set-20240101-000000"%string /\
  ReadDir ["backups"; "dhb-set-20240101-000000"]
    (final (Backup ["src"] ["backups"] t2024 single_fs))
    = Ok [mkentry "testfile.txt" false] /\
  file_at ["backups"; "dhb-set-20240101-000000"; "testfile.txt"]
    (final (Backup ["src"] ["backups"] t2024 single_fs))
    = Some "backmeup susie
"%string.
Proof. vm_compute. repeat split. Qed.

(** C5: an unreadable first file ends the run in [log.Fatal] and the
    second file is never copied. *)
Lemma unreadable_file_aborts_walk :
  is_fatal (Backup ["src"] ["backups"] t2024 unreadable_fs) = true /\
  tree (final (Backup ["src"] ["backups"] t2024 unreadable_fs))
    !! ["backups"; "dhb-set-20240101-000000"; "b.txt"] = None.
Proof. vm_compute. split; reflexivity. Qed.

(** C8: a year of five digits widens the [%04d] field: the name is not of
    the [dhb-set-YYYYMMDD-hhmmss] shape. *)
Lemma year_10000_name_not_set_shaped :
  GenerateName (at_time 10000 1 1 0 0 0) = "dhb-set-100000101-000000"%string /\
  IsBackupSetName (GenerateName (at_time 10000 1 1 0 0 0)) = false.
Proof. vm_compute. split; reflexivity. Qed.

End ScenarioFacts.

(** ** Set names *)
Module Naming.

Lemma check_width_4 : check_width 4 digits4 10000 = true.
Proof. vm_compute. reflexivity. Qed.

Lemma check_width_2 : check_width 2 digits2 100 = true.
Proof. vm_compute. reflexivity. Qed.

Lemma check_width_sound w spec bound z :
  check_width w spec bound = true -> (0 <= z < bound)%Z ->
  fmt_0d w z = spec z.
Proof.
  unfold check_width. intros Hc Hz.
  apply (proj1 (forallb_forall _ _)) with (x := Z.to_nat z) in Hc.
  - rewrite Z2Nat.id in Hc by lia. now apply String.eqb_eq.
  - apply in_seq. lia.
Qed.

Lemma fmt_0d_4 y : (0 <= y <= 9999)%Z -> fmt_0d 4 y = digits4 y.
Proof. intros. apply (check_width_sound _ _ _ _ check_width_4). lia. Qed.

Lemma fmt_0d_2 z : (0 <= z <= 99)%Z -> fmt_0d 2 z = digits2 z.
Proof. intros. apply (check_width_sound _ _ _ _ check_width_2). lia. Qed.

Lemma is_digit_digit_char n : (n < 10)%N -> is_digit (digit_char n) = true.
Proof.
  intros Hn.
  assert (Hall : forallb (fun k => is_digit (digit_char (N.of_nat k))) (seq 0 10) = true)
    by reflexivity.
  apply (proj1 (forallb_forall _ _)) with (x := N.to_nat n) in Hall.
  - now rewrite N2Nat.id in Hall.
  - apply in_seq. lia.
Qed.

Lemma is_digit_digitZ z : is_digit (digitZ z) = true.
Proof.
  unfold digitZ. apply is_digit_digit_char.
  pose proof (Z.mod_pos_bound z 10 ltac:(lia)). lia.
Qed.

(** C8 (as amended): with a year of at most four digits, [GenerateName]
    is [dhb-set-] followed by the zero-padded year, month, day, [-], hour,
    minute and second, and the result is a set name. *)
Theorem GenerateName_fixed_width (getTime : unit -> time)
    (Hyear : (0 <= Year (getTime tt) <= 9999)%Z)
    (Hclock : clock_fields_in_range (getTime tt)) :
  GenerateName getTime = spec_set_name (getTime tt) /\
  IsBackupSetName (GenerateName getTime) = true.
Proof.
  destruct Hclock as (Hmo & Hd & Hh & Hmi & Hs).
  assert (E : GenerateName getTime = spec_set_name (getTime tt)).
  { unfold GenerateName, spec_set_name.
    rewrite fmt_0d_4, !fmt_0d_2 by lia. reflexivity. }
  split; [exact E |].
  rewrite E. unfold spec_set_name, digits4, digits2.
  cbv beta iota fix zeta delta [String.append].
  cbn -[digitZ is_digit]. rewrite !is_digit_digitZ. reflexivity.
Qed.

Lemma GenerateName_fixed_width_witness :
  GenerateName (Scenario.at_time 2001 2 3 14 5 6) = "dhb-set-20010203-140506"%string /\
  IsBackupSetName (GenerateName (Scenario.at_time 2001 2 3 14 5 6)) = true.
Proof.
  destruct (GenerateName_fixed_width (Scenario.at_time 2001 2 3 14 5 6)) as [H1 H2].
  - simpl. lia.
  - unfold clock_fields_in_range. simpl. lia.
  - split; [rewrite H1; vm_compute; reflexivity | exact H2].
Defined.

End Naming.

(** ** [os.MkdirAll] and [CreateEmptySet] *)
Module SetCreation.

Lemma Mkdir_done p s : exists e s', Mkdir p s = Done e s'.
Proof.
  unfold Mkdir. destruct p; [eauto |].
  destruct (tree s !! _); [eauto |].
  destruct (tree s !! parent _) as [[|]|]; eauto.
Qed.

Lemma Mkdir_ok p s s' : Mkdir p s = Done None s' -> tree s' !! p = Some NDir.
Proof.
  unfold Mkdir. destruct p as [|a p']; [congruence |].
  destruct (tree s !! _); [congruence |].
  destruct (tree s !! parent _) as [[|]|]; try congruence.
  intros H. inversion H; subst. simpl. apply lookup_insert_eq.
Qed.

Lemma mkdir_checked_done p s : exists e s', mkdir_checked p s = Done e s'.
Proof.
  unfold mkdir_checked, bind. destruct (Mkdir_done p s) as (e & s' & ->).
  destruct e; [| unfold ret; eauto].
  destruct (tree s' !! p) as [[|]|]; eauto.
Qed.

Lemma mkdir_checked_ok p s s' : mkdir_checked p s = Done None s' -> tree s' !! p = Some NDir.
Proof.
  unfold mkdir_checked, bind. destruct (Mkdir_done p s) as (e & s1 & Hm). rewrite Hm.
  destruct e as [e|].
  - destruct (tree s1 !! p) as [[|]|] eqn:E1; intros H; inversion H; subst; exact E1.
  - unfold ret. intros H. inversion H; subst. eapply Mkdir_ok; eauto.
Qed.

Lemma mkdir_all_aux_done n p s : exists e s', mkdir_all_aux n p s = Done e s'.
Proof.
  revert p s. induction n as [|n IH]; intros p s; simpl;
    destruct (tree s !! p) as [[|]|]; eauto using mkdir_checked_done.
  destruct (parent p) as [|a q]; [apply mkdir_checked_done |].
  unfold bind. destruct (IH (a :: q) s) as (e & s' & ->).
  destruct e; [unfold ret; eauto | apply mkdir_checked_done].
Qed.

Lemma mkdir_all_aux_ok n p s s' :
  mkdir_all_aux n p s = Done None s' -> tree s' !! p = Some NDir.
Proof.
  revert p s s'. induction n as [|n IH]; intros p s s' H; simpl in H;
    destruct (tree s !! p) as [[|]|] eqn:E;
    try (inversion H; subst; exact E); try discriminate H;
    try (eapply mkdir_checked_ok; exact H).
  destruct (parent p) as [|a q]; [eapply mkdir_checked_ok; exact H |].
  unfold bind in H. destruct (mkdir_all_aux_done n (a :: q) s) as (e & s1 & E1).
  rewrite E1 in H. destruct e; [unfold ret in H; discriminate H |].
  eapply mkdir_checked_ok; exact H.
Qed.

Lemma MkdirAll_existing_dir p s : tree s !! p = Some NDir -> MkdirAll p s = Done None s.
Proof. intros H. unfold MkdirAll. destruct (length p); simpl; now rewrite H. Qed.

(** C9: [CreateEmptySet] returns the generated name with exactly the
    error of [os.MkdirAll] on the set path, and always returns; on an
    existing set directory it succeeds without changing anything, so a
    second call whose clock shows the same time returns the same name
    without error and shares the directory the first call made. *)
Theorem CreateEmptySet_error_is_MkdirAll (dest : path) (getTime : unit -> time) (s : fs) :
  (forall e s', CreateEmptySet dest getTime s = Done (GenerateName getTime, e) s' <->
                MkdirAll (dest ++ [GenerateName getTime]) s = Done e s') /\
  (exists e s', CreateEmptySet dest getTime s = Done (GenerateName getTime, e) s') /\
  (tree s !! (dest ++ [GenerateName getTime]) = Some NDir ->
   CreateEmptySet dest getTime s = Done (GenerateName getTime, None) s) /\
  (forall (getTime2 : unit -> time) s1,
     getTime2 tt = getTime tt ->
     CreateEmptySet dest getTime s = Done (GenerateName getTime, None) s1 ->
     CreateEmptySet dest getTime2 s1 = Done (GenerateName getTime, None) s1 /\
     tree s1 !! (dest ++ [GenerateName getTime]) = Some NDir).
Proof.
  assert (Hunf : forall g s0, CreateEmptySet dest g s0 =
    match MkdirAll (dest ++ [GenerateName g]) s0 with
    | Done e s' => Done (GenerateName g, e) s'
    | Fatal s' => Fatal s'
    | OutOfFuel s' => OutOfFuel s'
    end) by reflexivity.
  split; [| split; [| split]].
  - intros e s'. rewrite Hunf.
    destruct (mkdir_all_aux_done (length (dest ++ [GenerateName getTime]))
                (dest ++ [GenerateName getTime]) s) as (e0 & s0 & H0).
    unfold MkdirAll. rewrite H0. split; intros H; inversion H; subst; reflexivity.
  - rewrite Hunf.
    destruct (mkdir_all_aux_done (length (dest ++ [GenerateName getTime]))
                (dest ++ [GenerateName getTime]) s) as (e0 & s0 & H0).
    unfold MkdirAll. rewrite H0. eauto.
  - intros H. rewrite Hunf, MkdirAll_existing_dir by exact H. reflexivity.
  - intros g2 s1 Hg H. rewrite Hunf in H.
    destruct (mkdir_all_aux_done (length (dest ++ [GenerateName getTime]))
                (dest ++ [GenerateName getTime]) s) as (e0 & s0 & H0).
    unfold MkdirAll in H. rewrite H0 in H. inversion H; subst.
    apply mkdir_all_aux_ok in H0.
    assert (Hn : GenerateName g2 = GenerateName getTime)
      by (unfold GenerateName; now rewrite Hg).
    split; [| exact H0].
    rewrite Hunf, Hn, MkdirAll_existing_dir by exact H0. reflexivity.
Qed.

End SetCreation.

(** ** Directory listings *)
Module Listing.

Lemma string_leb_trans a b c :
  String.leb a b = true -> String.leb b c = true -> String.leb a c = true.
Proof.
  unfold String.leb. revert b c.
  induction a as [|x a IH]; intros [|y b] [|z c]; simpl; try discriminate; auto.
  unfold Ascii.compare.
  destruct (N.compare_spec (N_of_ascii x) (N_of_ascii y)) as [E1|E1|E1];
  destruct (N.compare_spec (N_of_ascii y) (N_of_ascii z)) as [E2|E2|E2];
  destruct (N.compare_spec (N_of_ascii x) (N_of_ascii z)) as [E3|E3|E3];
    intros H1 H2; try discriminate; try reflexivity; try lia.
  eapply IH; eauto.
Qed.

Lemma string_leb_refl a : String.leb a a = true.
Proof. destruct (String.leb_total a a); auto. Qed.

Lemma string_leb_false a b : String.leb a b = false -> String.leb b a = true.
Proof. intros H. destruct (String.leb_total a b); congruence. Qed.

Lemma insert_entry_perm e l : Permutation (insert_entry e l) (e :: l).
Proof.
  induction l as [|x l IH]; simpl; [auto |].
  destruct (String.leb _ _); [auto |].
  rewrite IH. apply perm_swap.
Qed.

Lemma sort_entries_perm l : Permutation (sort_entries l) l.
Proof.
  induction l as [|e l IH]; simpl; [auto |].
  rewrite insert_entry_perm. now apply perm_skip.
Qed.

Lemma insert_entry_sorted e l :
  StronglySorted name_le l -> StronglySorted name_le (insert_entry e l).
Proof.
  induction l as [|x l IH]; simpl; intros Hs.
  - repeat constructor.
  - apply StronglySorted_inv in Hs as [Hs Hx].
    destruct (String.leb (e_name e) (e_name x)) eqn:E.
    + constructor; [constructor; auto |].
      constructor; [exact E |].
      apply Forall_forall. intros y Hy.
      eapply string_leb_trans; [exact E | exact (proj1 (Forall_forall _ _) Hx y Hy)].
    + constructor; [auto |].
      eapply Permutation_Forall; [symmetry; apply insert_entry_perm |].
      constructor; [apply string_leb_false, E | exact Hx].
Qed.

Lemma sort_entries_sorted l : StronglySorted name_le (sort_entries l).
Proof.
  induction l as [|e l IH]; simpl; [constructor |]. now apply insert_entry_sorted.
Qed.

Lemma filter_sorted (f : entry -> Prop) `{forall x, Decision (f x)} l :
  StronglySorted name_le l -> StronglySorted name_le (filter f l).
Proof.
  induction l as [|x l IH]; intros Hs; simpl; [constructor |].
  apply StronglySorted_inv in Hs as [Hs Hx].
  rewrite filter_cons. case_decide; [| auto].
  constructor; [auto |].
  apply Forall_forall. intros y Hy.
  apply list_elem_of_filter in Hy as [_ Hy]. exact (proj1 (Forall_forall _ _) Hx y Hy).
Qed.

Lemma last_in {A} (l : list A) d : l <> [] -> In (List.last l d) l.
Proof.
  induction l as [|a [|b l] IH]; intros H; [congruence | now left |].
  right. apply IH. discriminate.
Qed.

Lemma last_is_max l d :
  StronglySorted name_le l -> forall x, In x l -> name_le x (List.last l d).
Proof.
  induction l as [|a l IH]; intros Hs x Hx; [destruct Hx |].
  apply StronglySorted_inv in Hs as [Hs Ha].
  destruct l as [|b l'].
  - destruct Hx as [<- | []]. apply string_leb_refl.
  - change (List.last (a :: b :: l') d) with (List.last (b :: l') d).
    destruct Hx as [<- | Hx]; [| auto].
    apply (proj1 (Forall_forall _ _) Ha). apply list_elem_of_In, last_in. discriminate.
Qed.

Lemma strip_prefix_app p r : strip_prefix p (p ++ r) = Some r.
Proof. induction p as [|a p IH]; simpl; [auto |]. now rewrite String.eqb_refl. Qed.

Lemma strip_prefix_some p k r : strip_prefix p k = Some r -> k = p ++ r.
Proof.
  revert k. induction p as [|a p IH]; intros [|b k]; simpl; try congruence.
  destruct (String.eqb_spec a b); [| congruence].
  intros H. subst. f_equal. auto.
Qed.

Lemma child_name_iff p k n : child_name p k = Some n <-> k = p ++ [n].
Proof.
  unfold child_name. split.
  - destruct (strip_prefix p k) as [[|n' [|]]|] eqn:E; try congruence.
    intros [= <-]. now apply strip_prefix_some.
  - intros ->. now rewrite strip_prefix_app.
Qed.

Lemma listing_elem (p : path) (m : gmap path node) (e : entry) :
  e ∈ omap (entry_of p m) (elements (children_keys p m)) <->
  exists v, m !! (p ++ [e_name e]) = Some v /\ e_dir e = is_dir v.
Proof.
  rewrite list_elem_of_omap. split.
  - intros (k & Hk & He). unfold entry_of in He.
    destruct (child_name p k) as [n|] eqn:En; [| discriminate].
    destruct (m !! k) as [v|] eqn:Ev; [| discriminate].
    injection He as <-. apply child_name_iff in En. subst k. simpl. eauto.
  - intros (v & Hv & Hd). exists (p ++ [e_name e]). split.
    + apply elem_of_elements. unfold children_keys.
      apply elem_of_filter. split.
      * unfold is_child. now rewrite (proj2 (child_name_iff _ _ _) eq_refl).
      * apply elem_of_dom. eauto.
    + unfold entry_of. rewrite (proj2 (child_name_iff _ _ _) eq_refl), Hv.
      destruct e; simpl in *; congruence.
Qed.

Lemma ReadDir_elem (p : path) (s : fs) (L : list entry) (e : entry) :
  ReadDir p s = Ok L ->
  (In e L <-> exists v, tree s !! (p ++ [e_name e]) = Some v /\ e_dir e = is_dir v).
Proof.
  unfold ReadDir. destruct (tree s !! p) as [[|]|]; try discriminate.
  intros [= <-]. rewrite <- listing_elem, list_elem_of_In.
  split; apply Permutation_in; [| symmetry]; apply sort_entries_perm.
Qed.

Lemma ReadDir_sorted p s L : ReadDir p s = Ok L -> StronglySorted name_le L.
Proof.
  unfold ReadDir. destruct (tree s !! p) as [[|]|]; try discriminate.
  intros [= <-]. apply sort_entries_sorted.
Qed.

Lemma ReadDir_err p s : (exists e, ReadDir p s = Err e) <-> tree s !! p <> Some NDir.
Proof.
  unfold ReadDir. destruct (tree s !! p) as [[|]|]; split; intros H;
    try (destruct H as [? H]); try discriminate; eauto; congruence.
Qed.

End Listing.

(** ** [FindLatestSet] *)
Module LatestSet.
Import Listing.

Lemma FindLatestSet_unfold dest s L :
  ReadDir dest s = Ok L ->
  FindLatestSet dest s =
    match filter (fun info => IsBackupSetName (e_name info) = true) L with
    | [] => Ok String.EmptyString
    | l => Ok (e_name (List.last l (mkentry String.EmptyString false)))
    end.
Proof.
  intros H. unfold FindLatestSet. rewrite H.
  destruct (filter _ L); reflexivity.
Qed.

(** C6: when [FindLatestSet dest] succeeds with [name], either no entry
    immediately under [dest] has a set-shaped name and [name] is empty, or
    [name] is the name of an entry under [dest], it is set-shaped, and it is
    greater than or equal (in the byte order of [String.leb]) to every
    set-shaped entry name under [dest]; entries with other names play no
    part. *)
Theorem FindLatestSet_greatest (dest : path) (s : fs) (name : string) :
  FindLatestSet dest s = Ok name ->
  (name = String.EmptyString /\
   forall n v, tree s !! (dest ++ [n]) = Some v -> IsBackupSetName n = false) \/
  (IsBackupSetName name = true /\
   (exists v, tree s !! (dest ++ [name]) = Some v) /\
   forall n v, tree s !! (dest ++ [n]) = Some v -> IsBackupSetName n = true ->
     String.leb n name = true).
Proof.
  destruct (ReadDir dest s) as [L|e] eqn:HR;
    [| unfold FindLatestSet; rewrite HR; discriminate].
  rewrite (FindLatestSet_unfold _ _ _ HR).
  set (F := filter (fun info => IsBackupSetName (e_name info) = true) L).
  assert (HF : forall x, In x F <-> In x L /\ IsBackupSetName (e_name x) = true).
  { intros x. rewrite <- !list_elem_of_In. unfold F.
    rewrite list_elem_of_filter. tauto. }
  assert (Hmem : forall n v, tree s !! (dest ++ [n]) = Some v -> In (mkentry n (is_dir v)) L).
  { intros n v Hv. apply (ReadDir_elem _ _ _ _ HR). simpl. eauto. }
  destruct F as [|f F'] eqn:EF; intros [= <-].
  - left. split; [reflexivity |]. intros n v Hv.
    destruct (IsBackupSetName n) eqn:Hn; [| reflexivity].
    exfalso. apply (proj2 (HF (mkentry n (is_dir v)))). auto.
  - right.
    assert (Hlast : In (List.last (f :: F') (mkentry String.EmptyString false)) (f :: F'))
      by (apply last_in; discriminate).
    apply HF in Hlast as [HinL Hset]. split; [exact Hset |]. split.
    + apply (ReadDir_elem _ _ _ _ HR) in HinL as (v & Hv & _). eauto.
    + intros n v Hv Hn.
      assert (Hs : StronglySorted name_le (f :: F')).
      { rewrite <- EF. unfold F. apply filter_sorted. eapply ReadDir_sorted; eauto. }
      apply (last_is_max _ (mkentry String.EmptyString false) Hs (mkentry n (is_dir v))).
      apply HF. auto.
Qed.

(** Witness of C6 on the state of TestFindLatestSet: the set created second
    (at +3s) is found. *)
Lemma FindLatestSet_greatest_witness :
  FindLatestSet ["backups"] Scenario.find_latest_fs = Ok "dhb-set-20191231-235903"%string /\
  (("dhb-set-20191231-235903"%string = String.EmptyString /\
    forall n v, tree Scenario.find_latest_fs !! (["backups"] ++ [n]) = Some v ->
      IsBackupSetName n = false) \/
   (IsBackupSetName "dhb-set-20191231-235903" = true /\
    (exists v, tree Scenario.find_latest_fs !! (["backups"] ++ ["dhb-set-20191231-235903"%string]) = Some v) /\
    forall n v, tree Scenario.find_latest_fs !! (["backups"] ++ [n]) = Some v ->
      IsBackupSetName n = true -> String.leb n "dhb-set-20191231-235903" = true)).
Proof.
  split; [vm_compute; reflexivity |].
  apply (FindLatestSet_greatest ["backups"] Scenario.find_latest_fs).
  vm_compute. reflexivity.
Defined.

(** C7: [FindLatestSet dest] fails with an error exactly when listing
    [dest] fails with that error; when the listing succeeds and no entry has
    a set-shaped name the result is the empty name with no error. *)
Theorem FindLatestSet_error_iff_ReadDir (dest : path) (s : fs) :
  (forall e, FindLatestSet dest s = Err e <-> ReadDir dest s = Err e) /\
  (forall L, ReadDir dest s = Ok L ->
     (forall x, In x L -> IsBackupSetName (e_name x) = false) ->
     FindLatestSet dest s = Ok String.EmptyString).
Proof.
  assert (H1 : forall e, FindLatestSet dest s = Err e <-> ReadDir dest s = Err e).
  { intros e. unfold FindLatestSet. destruct (ReadDir dest s) as [L|e'].
    - split; [| discriminate]. destruct (filter _ L); discriminate.
    - split; intros [= ->]; reflexivity. }
  split; [exact H1 |].
  intros L HR Hnone. rewrite (FindLatestSet_unfold _ _ _ HR).
  replace (filter _ L) with (@nil entry); [reflexivity |].
  clear HR. induction L as [|x L IH]; [reflexivity |].
  rewrite filter_cons. case_decide as HB.
  - rewrite (Hnone x (or_introl eq_refl)) in HB. discriminate.
  - apply IH. intros y Hy. apply Hnone. now right.
Qed.

End LatestSet.

(** ** Directory walks *)
Module Walk.
Import Listing.

Lemma bind_Done {A B} (m : M A) (k : A -> M B) s b s' :
  bind m k s = Done b s' -> exists a s1, m s = Done a s1 /\ k a s1 = Done b s'.
Proof. unfold bind. destruct (m s); try discriminate. eauto. Qed.

Lemma bind_step {A B} (m : M A) (k : A -> M B) s a s1 :
  m s = Done a s1 -> bind m k s = k a s1.
Proof. intros H. unfold bind. now rewrite H. Qed.

Lemma bind_fatal {A B} (m : M A) (k : A -> M B) s s1 :
  m s = Fatal s1 -> bind m k s = Fatal s1.
Proof. intros H. unfold bind. now rewrite H. Qed.

Lemma app_cons_snoc (p : path) n r : (p ++ [n]) ++ r = p ++ n :: r.
Proof. now rewrite <- app_assoc. Qed.

Lemma disjoint_paths_apart p q : disjoint_paths p q = true -> apart p q.
Proof.
  unfold disjoint_paths, apart. intros H.
  apply andb_true_iff in H as [H1 H2]. apply negb_true_iff in H1, H2.
  revert q H1 H2. induction p as [|a p IH]; intros [|b q] H1 H2 r r';
    simpl in *; try discriminate.
  destruct (String.eqb_spec a b) as [<-|Hab].
  - rewrite String.eqb_refl in H2. simpl in H1, H2.
    intros E. injection E as E. exact (IH q H1 H2 r r' E).
  - intros E. injection E as E _. exact (Hab E).
Qed.

Lemma apart_app p q n : apart p q -> apart (p ++ [n]) (q ++ [n]).
Proof. intros H r r'. rewrite <- !app_assoc. apply H. Qed.

Lemma wf_fs_wellformed s : wf_fs s = true -> wellformed s.
Proof.
  unfold wf_fs. rewrite forallb_forall. intros H.
  assert (H' : forall k v, tree s !! k = Some v ->
    (match k with [] => true
     | _ => match tree s !! parent k with Some NDir => true | _ => false end end &&
     match v with NFile i => Nat.ltb i (next_ino s) | NDir => true end) = true).
  { intros k v Hk. apply (H (k, v)). apply list_elem_of_In, elem_of_map_to_list. exact Hk. }
  split.
  - intros k v Hk Hne. specialize (H' k v Hk). apply andb_true_iff in H' as [H' _].
    destruct k as [|a k]; [congruence |].
    destruct (tree s !! parent (a :: k)) as [[|]|]; congruence.
  - intros k i Hk. specialize (H' k _ Hk). apply andb_true_iff in H' as [_ H'].
    now apply Nat.ltb_lt.
Qed.

Lemma Mkdir_none p s s' :
  Mkdir p s = Done None s' ->
  p <> [] /\ tree s !! p = None /\ tree s !! parent p = Some NDir /\
  s' = set_tree (<[p := NDir]> (tree s)) s.
Proof.
  unfold Mkdir. destruct p as [|a p']; [congruence |].
  destruct (tree s !! (a :: p')) eqn:E1; [congruence |].
  destruct (tree s !! parent (a :: p')) as [[|]|] eqn:E2; try congruence.
  intros H. injection H as <-. repeat split; try discriminate; assumption.
Qed.

Lemma Link_none a b s s' :
  Link a b s = Done None s' ->
  exists i, tree s !! a = Some (NFile i) /\ b <> [] /\ tree s !! b = None /\
    tree s !! parent b = Some NDir /\ s' = set_tree (<[b := NFile i]> (tree s)) s.
Proof.
  unfold Link. destruct (tree s !! a) as [[|i]|] eqn:Ea; try congruence.
  destruct (tree s !! b) eqn:Eb; [congruence |].
  destruct b as [|c b']; destruct (tree s !! parent _) as [[|]|] eqn:Ep; try congruence.
  intros H. injection H as <-. exists i. repeat split; try discriminate; assumption.
Qed.

Lemma links_under_refl d s : links_under d s s.
Proof. constructor; auto. Qed.

Lemma links_under_trans d s1 s2 s3 :
  links_under d s1 s2 -> links_under d s2 s3 -> links_under d s1 s3.
Proof.
  intros [F1 M1 D1 N1 X1] [F2 M2 D2 N2 X2]. constructor; try congruence.
  - intros k Hk. rewrite F2, F1; auto.
  - auto.
Qed.

Lemma links_under_app d n s s' : links_under (d ++ [n]) s s' -> links_under d s s'.
Proof.
  intros [F Mo D N X]. constructor; auto.
  intros k Hk. apply F. intros r E. apply (Hk ([n] ++ r)). now rewrite app_assoc.
Qed.

Lemma links_under_insert d r s v :
  tree s !! (d ++ r) = None -> links_under d s (set_tree (<[d ++ r := v]> (tree s)) s).
Proof.
  intros Hn. constructor; simpl; auto.
  - intros k Hk. rewrite lookup_insert_ne; [reflexivity |]. intros E. exact (Hk r (eq_sym E)).
  - intros k w Hk. rewrite lookup_insert_ne; [exact Hk |]. intros <-. congruence.
Qed.

Lemma links_under_apart d p s s' :
  links_under d s s' -> apart p d -> forall r, tree s' !! (p ++ r) = tree s !! (p ++ r).
Proof. intros H Ha r. apply (lu_frame _ _ _ H). intros r'. apply Ha. Qed.

Lemma links_under_none d s s' k :
  links_under d s s' -> tree s' !! k = None -> tree s !! k = None.
Proof.
  intros H Hk. destruct (tree s !! k) eqn:E; [| reflexivity].
  apply (lu_mono _ _ _ H) in E. congruence.
Qed.

Lemma wellformed_insert s k v :
  wellformed s -> k <> [] -> tree s !! k = None -> tree s !! parent k = Some NDir ->
  (forall i, v = NFile i -> i < next_ino s) ->
  wellformed (set_tree (<[k := v]> (tree s)) s).
Proof.
  intros [Hp Hi] Hk Hn Hpar Hv. split; simpl.
  - intros k' v' Hk' Hne. destruct (decide (k = k')) as [<-|Hne'].
    + rewrite lookup_insert_ne; [exact Hpar |]. intros E. rewrite <- E in Hpar. congruence.
    + rewrite lookup_insert_ne in Hk' by exact Hne'.
      pose proof (Hp _ _ Hk' Hne) as Hq.
      destruct (decide (k = parent k')) as [E|E].
      * rewrite <- E in Hq. congruence.
      * rewrite lookup_insert_ne by exact E. exact Hq.
  - intros k' i Hk'. destruct (decide (k = k')) as [<-|Hne'].
    + rewrite lookup_insert_eq in Hk'. injection Hk' as Hk'. exact (Hv i Hk').
    + rewrite lookup_insert_ne in Hk' by exact Hne'. exact (Hi _ _ Hk').
Qed.

Lemma wellformed_prefix s p r v :
  wellformed s -> tree s !! (p ++ r) = Some v -> r <> [] -> tree s !! p = Some NDir.
Proof.
  intros [Hp _]. revert v.
  induction r as [|m r IH] using rev_ind; intros v Hv Hne; [congruence |].
  assert (Hq : tree s !! (p ++ r) = Some NDir).
  { replace (p ++ r) with (parent (p ++ r ++ [m])).
    - apply (Hp _ v Hv). intros E. apply app_eq_nil in E as [_ E].
      apply app_eq_nil in E as [_ E]. discriminate.
    - unfold parent. now rewrite app_assoc, removelast_last. }
  destruct r as [|x r'].
  - now rewrite app_nil_r in Hq.
  - apply (IH NDir Hq). discriminate.
Qed.

Lemma child_exists s p n r w :
  wellformed s -> tree s !! (p ++ n :: r) = Some w -> exists v, tree s !! (p ++ [n]) = Some v.
Proof.
  intros Hw H. destruct r as [|m r]; [eauto |].
  exists NDir. eapply wellformed_prefix; [exact Hw | rewrite app_cons_snoc; exact H | discriminate].
Qed.

Lemma ReadDir_ok_dir p s L : ReadDir p s = Ok L -> tree s !! p = Some NDir.
Proof. unfold ReadDir. destruct (tree s !! p) as [[|]|]; congruence. Qed.

Lemma omap_ext_eq {A B} (f g : A -> option B) (l : list A) :
  (forall x, f x = g x) -> omap f l = omap g l.
Proof.
  intros H. apply list_omap_ext. induction l as [|x l IH]; constructor; auto.
Qed.

Lemma ReadDir_agree p s s' :
  (forall r, tree s' !! (p ++ r) = tree s !! (p ++ r)) -> ReadDir p s' = ReadDir p s.
Proof.
  intros H. unfold ReadDir.
  pose proof (H []) as H0. rewrite app_nil_r in H0. rewrite H0.
  assert (He : forall k, entry_of p (tree s') k = entry_of p (tree s) k).
  { intros k. unfold entry_of. destruct (child_name p k) eqn:E; [| reflexivity].
    apply child_name_iff in E. subst k. now rewrite H. }
  assert (Hc : children_keys p (tree s') = children_keys p (tree s)).
  { apply set_eq. intros k. unfold children_keys. rewrite !elem_of_filter, !elem_of_dom.
    unfold is_child. destruct (child_name p k) eqn:E;
      [| split; intros [Hc _]; discriminate Hc].
    apply child_name_iff in E. subst k. now rewrite H. }
  rewrite Hc, (omap_ext_eq _ _ _ He). reflexivity.
Qed.

Lemma Open_agree p s s' :
  tree s' !! p = tree s !! p -> noread s' = noread s -> Open p s' = Open p s.
Proof. intros H1 H2. unfold Open. now rewrite H1, H2. Qed.

(** The loop of [HardLinkCopy] over the listing [L] of [src]. *)
Lemma link_items_spec (rec : path -> path -> M (option error)) src dst s0 L :
  (forall n s s', wellformed s -> rec (src ++ [n]) (dst ++ [n]) s = Done None s' ->
     links_under (dst ++ [n]) s s' /\ wellformed s' /\ links_cov (src ++ [n]) (dst ++ [n]) s s') ->
  apart src dst -> wellformed s0 -> ReadDir src s0 = Ok L ->
  forall items s1 s', (forall x, In x items -> In x L) ->
  links_under dst s0 s1 -> wellformed s1 ->
  link_items rec src dst items s1 = Done None s' ->
  links_under dst s1 s' /\ wellformed s' /\
  forall x, In x items -> link_item_cov src dst s0 s1 s' (e_name x).
Proof.
  intros Hrec Hap Hw0 HR items.
  induction items as [|[n d] rest IHi]; intros s1 s' Hin Hu Hw H.
  { cbn [link_items] in H. unfold ret in H. injection H as <-.
    split; [apply links_under_refl |]. split; [exact Hw |]. intros x []. }
  destruct (proj1 (ReadDir_elem _ _ _ (mkentry n d) HR) (Hin _ (or_introl eq_refl)))
    as (v & Hv & Hd). cbn [e_name e_dir] in Hv, Hd.
  assert (Hag : forall r, tree s1 !! (src ++ r) = tree s0 !! (src ++ r))
    by (apply (links_under_apart dst); auto).
  assert (Hin' : forall x, In x rest -> In x L) by (intros; apply Hin; now right).
  cbn [link_items e_name e_dir] in H. destruct d.
  - (* a directory: Mkdir, then the recursive call *)
    destruct v as [|j]; [| discriminate Hd].
    apply bind_Done in H as (e & s1a & Em & H).
    destruct e as [e|]; cbv beta iota in H; [unfold fatal in H; discriminate H |].
    apply Mkdir_none in Em as (Hne & Habs & Hpar & Es1a).
    assert (Hu1a : links_under dst s1 s1a) by (rewrite Es1a; now apply links_under_insert).
    assert (Hw1a : wellformed s1a)
      by (rewrite Es1a; apply wellformed_insert; auto; discriminate).
    apply bind_Done in H as (r & s2 & Er & H).
    destruct r as [err|]; cbv beta iota in H; [unfold ret in H; discriminate H |].
    destruct (Hrec n s1a s2 Hw1a Er) as (Hu2 & Hw2 & Hcf & Hcd).
    assert (Hu12 : links_under dst s1 s2)
      by (eapply links_under_trans; [exact Hu1a | eapply links_under_app; exact Hu2]).
    destruct (IHi s2 s' Hin' (links_under_trans _ _ _ _ Hu Hu12) Hw2 H) as (Hu' & Hw' & Hcov).
    split; [eapply links_under_trans; eauto |]. split; [exact Hw' |].
    assert (Hag1a : forall r, tree s1a !! (src ++ r) = tree s0 !! (src ++ r)).
    { apply (links_under_apart dst); [eapply links_under_trans; eauto | exact Hap]. }
    intros x [<- | Hx]; cbn [e_name].
    + split.
      * intros r i Hf. apply (lu_mono _ _ _ Hu'). rewrite <- app_cons_snoc.
        apply Hcf. rewrite app_cons_snoc, Hag1a. exact Hf.
      * intros [|m r] Hdir.
        -- split; [exact Habs |]. apply (lu_mono _ _ _ Hu'), (lu_mono _ _ _ Hu2).
           rewrite Es1a. simpl. apply lookup_insert_eq.
        -- assert (Hsub : tree s1a !! ((src ++ [n]) ++ m :: r) = Some NDir)
             by (rewrite app_cons_snoc, Hag1a; exact Hdir).
           destruct (Hcd (m :: r) ltac:(discriminate) Hsub) as [Ha Hb].
           rewrite app_cons_snoc in Ha, Hb. split.
           ++ exact (links_under_none _ _ _ _ Hu1a Ha).
           ++ exact (lu_mono _ _ _ Hu' _ _ Hb).
    + destruct (Hcov x Hx) as [Hf Hdir]. split; [exact Hf |].
      intros r Hr. destruct (Hdir r Hr) as [Ha Hb].
      split; [exact (links_under_none _ _ _ _ Hu12 Ha) | exact Hb].
  - (* a regular file: os.Link *)
    destruct v as [|j]; [discriminate Hd |].
    apply bind_Done in H as (e & s1a & El & H).
    destruct e as [err|]; cbv beta iota in H; [unfold ret in H; discriminate H |].
    apply Link_none in El as (i & Hi & Hne & Habs & Hpar & Es1a).
    rewrite Hag, Hv in Hi. injection Hi as <-.
    assert (Hu1a : links_under dst s1 s1a) by (rewrite Es1a; now apply links_under_insert).
    assert (Hw1a : wellformed s1a).
    { rewrite Es1a. apply wellformed_insert; auto.
      intros i E. injection E as <-. apply (proj2 Hw (src ++ [n])). now rewrite Hag. }
    destruct (IHi s1a s' Hin' (links_under_trans _ _ _ _ Hu Hu1a) Hw1a H) as (Hu' & Hw' & Hcov).
    split; [eapply links_under_trans; eauto |]. split; [exact Hw' |].
    assert (Hnot : forall m r w, tree s0 !! (src ++ n :: m :: r) = Some w -> False).
    { intros m r w Hwm. assert (Hd0 : tree s0 !! (src ++ [n]) = Some NDir).
      { eapply wellformed_prefix; [exact Hw0 | rewrite app_cons_snoc; exact Hwm | discriminate]. }
      congruence. }
    intros x [<- | Hx]; cbn [e_name].
    + split.
      * intros [|m r] i Hf.
        -- rewrite Hv in Hf. injection Hf as <-. apply (lu_mono _ _ _ Hu').
           rewrite Es1a. simpl. apply lookup_insert_eq.
        -- exfalso. eapply Hnot; exact Hf.
      * intros [|m r] Hdir.
        -- congruence.
        -- exfalso. eapply Hnot; exact Hdir.
    + destruct (Hcov x Hx) as [Hf Hdir]. split; [exact Hf |].
      intros r Hr. destruct (Hdir r Hr) as [Ha Hb].
      split; [exact (links_under_none _ _ _ _ Hu1a Ha) | exact Hb].
Qed.

Lemma get_step s : get s = Done s s.
Proof. reflexivity. Qed.

Lemma HardLinkCopy_spec fuel : forall src dst s s',
  apart src dst -> wellformed s -> HardLinkCopy fuel src dst s = Done None s' ->
  links_under dst s s' /\ wellformed s' /\ links_cov src dst s s'.
Proof.
  induction fuel as [|fuel IH]; intros src dst s s' Hap Hw H;
    cbn [HardLinkCopy] in H; [unfold out_of_fuel in H; discriminate H |].
  rewrite (bind_step _ _ _ _ _ (get_step s)) in H. cbv beta in H.
  destruct (ReadDir src s) as [L|e] eqn:HR; [| unfold fatal in H; discriminate H].
  destruct (link_items_spec (HardLinkCopy fuel) src dst s L
              (fun n s1 s2 => IH (src ++ [n]) (dst ++ [n]) s1 s2 (apart_app _ _ _ Hap))
              Hap Hw HR L s s' (fun x Hx => Hx) (links_under_refl dst s) Hw H)
    as (Hu & Hw' & Hcov).
  split; [exact Hu |]. split; [exact Hw' |].
  assert (Hitem : forall n r w, tree s !! (src ++ n :: r) = Some w ->
                    link_item_cov src dst s s s' n).
  { intros n r w Hnr. destruct (child_exists _ _ _ _ _ Hw Hnr) as (v & Hv).
    apply (Hcov (mkentry n (is_dir v))).
    apply (proj2 (ReadDir_elem _ _ _ _ HR)). eauto. }
  split.
  - intros [|n r] i Hf.
    + rewrite app_nil_r in Hf. apply ReadDir_ok_dir in HR. congruence.
    + exact (proj1 (Hitem n r _ Hf) r i Hf).
  - intros [|n r] Hne Hd; [congruence |].
    exact (proj2 (Hitem n r _ Hd) r Hd).
Qed.

Lemma copy_items_app rec src dst l1 l2 s s1 :
  copy_items rec src dst l1 s = Done None s1 ->
  copy_items rec src dst (l1 ++ l2) s = copy_items rec src dst l2 s1.
Proof.
  revert s. induction l1 as [|[n d] l1 IH]; intros s H.
  - cbn [copy_items] in H. unfold ret in H. injection H as <-. reflexivity.
  - cbn [copy_items app e_name e_dir] in *. destruct d.
    + apply bind_Done in H as (e & s2 & Em & H). rewrite (bind_step _ _ _ _ _ Em).
      destruct e; cbv beta iota in H |- *; [unfold fatal in H; discriminate H |].
      apply bind_Done in H as (r & s3 & Er & H). rewrite (bind_step _ _ _ _ _ Er).
      destruct r; cbv beta iota in H |- *; [unfold ret in H; discriminate H |].
      now apply IH.
    + apply bind_Done in H as (u & s2 & Ec & H). rewrite (bind_step _ _ _ _ _ Ec).
      cbv beta in H |- *. now apply IH.
Qed.

Lemma CopyFile_open_error source dest s e :
  Open source s = Err e -> CopyFile source dest s = Fatal s.
Proof.
  intros H. unfold CopyFile. rewrite (bind_step _ _ _ _ _ (get_step s)).
  cbv beta. now rewrite H.
Qed.

End Walk.

(** ** [HardLinkCopy] *)
Module Linking.
Import Walk.

(** C10: when [HardLinkCopy source dest] returns nil on a well-formed file
    system, [source] and [dest] lying outside each other (as two sets of
    one destination do), every regular file at a relative path [r] under
    [source] has [dest/r] naming the same inode ([os.SameFile] holds),
    every directory at a relative path [r] under [source] has [dest/r] as
    a directory that did not exist before the call, the source tree is
    unchanged, and no file contents were touched. *)
Theorem HardLinkCopy_links_every_file (fuel : nat) (source dest : path) (s s' : fs) :
  disjoint_paths source dest = true -> wf_fs s = true ->
  HardLinkCopy fuel source dest s = Done None s' ->
  (forall r i, tree s !! (source ++ r) = Some (NFile i) ->
     tree s' !! (dest ++ r) = Some (NFile i) /\
     same_file (source ++ r) (dest ++ r) s' = true) /\
  (forall r, r <> [] -> tree s !! (source ++ r) = Some NDir ->
     tree s !! (dest ++ r) = None /\ tree s' !! (dest ++ r) = Some NDir) /\
  (forall r, tree s' !! (source ++ r) = tree s !! (source ++ r)) /\
  data s' = data s.
Proof.
  intros Hd Hwf H. apply disjoint_paths_apart in Hd. apply wf_fs_wellformed in Hwf.
  destruct (HardLinkCopy_spec fuel source dest s s' Hd Hwf H) as (Hu & _ & Hf & Hdir).
  assert (Hsrc : forall r, tree s' !! (source ++ r) = tree s !! (source ++ r))
    by (apply (links_under_apart dest); auto).
  split; [| split; [exact Hdir | split; [exact Hsrc | exact (lu_data _ _ _ Hu)]]].
  intros r i Hi. split; [exact (Hf r i Hi) |].
  unfold same_file. rewrite Hsrc, Hi, (Hf r i Hi). apply Nat.eqb_refl.
Qed.

(** Witness of C10: the second run of TestHardLinksSecondBackup, linking
    the first set (with its [thats/deep] folders) into the second. *)
Lemma HardLinkCopy_links_every_file_witness :
  let s := Scenario.before_link_fs in
  let s' := final (HardLinkCopy (walk_fuel s) Scenario.set1 Scenario.set2 s) in
  (forall r i, tree s !! (Scenario.set1 ++ r) = Some (NFile i) ->
     tree s' !! (Scenario.set2 ++ r) = Some (NFile i) /\
     same_file (Scenario.set1 ++ r) (Scenario.set2 ++ r) s' = true) /\
  (forall r, r <> [] -> tree s !! (Scenario.set1 ++ r) = Some NDir ->
     tree s !! (Scenario.set2 ++ r) = None /\ tree s' !! (Scenario.set2 ++ r) = Some NDir) /\
  (forall r, tree s' !! (Scenario.set1 ++ r) = tree s !! (Scenario.set1 ++ r)) /\
  data s' = data s.
Proof.
  intros s s'.
  apply (HardLinkCopy_links_every_file (walk_fuel s) Scenario.set1 Scenario.set2 s s');
    vm_compute; reflexivity.
Defined.

End Linking.

(** ** Failures of [CopyFile] *)
Module CopyFailure.
Import Walk.

(** C5: an entry of the source listing that is a regular file which
    [os.Open] cannot open makes [CopyFile] call [log.Fatal]: once the
    entries before it are copied, [CopyFolder] ends the process right
    there, in the state reached so far, and none of the remaining entries
    is looked at. *)
Theorem CopyFolder_unopenable_file_is_fatal (fuel : nat) (source dest : path)
    (pre rest : list entry) (item : entry) (s s1 : fs) (e : error) :
  ReadDir source s = Ok (pre ++ item :: rest) ->
  copy_items (CopyFolder fuel) source dest pre s = Done None s1 ->
  e_dir item = false -> Open (source ++ [e_name item]) s1 = Err e ->
  CopyFolder (S fuel) source dest s = Fatal s1.
Proof.
  intros HR Hpre Hd Ho. cbn [CopyFolder].
  rewrite (bind_step _ _ _ _ _ (get_step s)). cbv beta. rewrite HR. cbv iota.
  rewrite (copy_items_app _ _ _ _ _ _ _ Hpre).
  destruct item as [n d]. cbn [e_dir e_name] in Hd, Ho. subst d.
  cbn [copy_items e_name e_dir]. apply bind_fatal. now apply (CopyFile_open_error _ _ _ e).
Qed.

(** Witness of C5: in [unreadable_fs], [a.txt] (listed first) cannot be
    read; [b.txt] after it is never copied. *)
Lemma CopyFolder_unopenable_file_is_fatal_witness :
  CopyFolder 3 ["src"] ["backups"; "set"] Scenario.unreadable_fs = Fatal Scenario.unreadable_fs.
Proof.
  apply (CopyFolder_unopenable_file_is_fatal 2 ["src"] ["backups"; "set"] []
           [mkentry "b.txt" false] (mkentry "a.txt" false)
           Scenario.unreadable_fs Scenario.unreadable_fs EACCES);
    vm_compute; reflexivity.
Defined.

End CopyFailure.

(** ** Single steps of [Backup] *)
Module Steps.
Import Walk.

Lemma Mkdir_new p s :
  p <> [] -> tree s !! p = None -> tree s !! parent p = Some NDir ->
  Mkdir p s = Done None (set_tree (<[p := NDir]> (tree s)) s).
Proof.
  intros Hne Hn Hp. unfold Mkdir. destruct p as [|a q]; [congruence |].
  now rewrite Hn, Hp.
Qed.

Lemma MkdirAll_new p s :
  p <> [] -> tree s !! p = None -> tree s !! parent p = Some NDir ->
  MkdirAll p s = Done None (set_tree (<[p := NDir]> (tree s)) s).
Proof.
  intros Hne Hn Hp. unfold MkdirAll.
  destruct (length p) as [|n] eqn:Hl; [destruct p; [congruence | discriminate] |].
  cbn [mkdir_all_aux]. rewrite Hn.
  assert (Hck : mkdir_checked p s = Done None (set_tree (<[p := NDir]> (tree s)) s)).
  { unfold mkdir_checked. now rewrite (bind_step _ _ _ _ _ (Mkdir_new p s Hne Hn Hp)). }
  destruct (parent p) as [|a q] eqn:Epar; [exact Hck |].
  assert (Hq : mkdir_all_aux n (a :: q) s = Done None s)
    by (destruct n; cbn [mkdir_all_aux]; now rewrite Hp).
  now rewrite (bind_step _ _ _ _ _ Hq).
Qed.

Lemma parent_snoc (p : path) n : parent (p ++ [n]) = p.
Proof. apply removelast_last. Qed.

Lemma snoc_not_nil (p : path) n : p ++ [n] <> [].
Proof. destruct p; discriminate. Qed.

Lemma CopyFolder_S fuel src dst s L :
  ReadDir src s = Ok L -> CopyFolder (S fuel) src dst s = copy_items (CopyFolder fuel) src dst L s.
Proof.
  intros HR. cbn [CopyFolder]. rewrite (bind_step _ _ _ _ _ (get_step s)).
  cbv beta. now rewrite HR.
Qed.

Lemma Open_file p s i : Open p s = Ok (HFile i) -> tree s !! p = Some (NFile i) /\ i ∉ noread s.
Proof.
  unfold Open. destruct (tree s !! p) as [[|j]|]; try discriminate.
  case_decide; [discriminate |]. intros [= ->]. auto.
Qed.

Lemma Create_new p s :
  tree s !! p = None -> p <> [] -> tree s !! parent p = Some NDir ->
  Create p s = Done (Ok (next_ino s))
    (mkfs (<[p := NFile (next_ino s)]> (tree s)) (<[next_ino s := String.EmptyString]> (data s))
          (noread s) (S (next_ino s))).
Proof.
  intros Hn Hne Hp. unfold Create. rewrite Hn.
  destruct p as [|a q]; [congruence |]. now rewrite Hp.
Qed.

Lemma CopyFile_new a b s i :
  Open a s = Ok (HFile i) -> tree s !! b = None -> b <> [] ->
  tree s !! parent b = Some NDir -> i <> next_ino s ->
  CopyFile a b s =
    Done tt (mkfs (<[b := NFile (next_ino s)]> (tree s))
                  (<[next_ino s := contents i s]> (<[next_ino s := String.EmptyString]> (data s)))
                  (noread s) (S (next_ino s))).
Proof.
  intros Ho Hn Hne Hp Hi. unfold CopyFile.
  rewrite (bind_step _ _ _ _ _ (get_step s)). cbv beta. rewrite Ho.
  rewrite (bind_step _ _ _ _ _ (Create_new b s Hn Hne Hp)). cbv beta iota.
  unfold Copy, bind, ret, set_data. cbn [tree data noread next_ino].
  unfold contents at 1. cbn [data]. rewrite lookup_insert_ne by congruence.
  reflexivity.
Qed.

End Steps.

(** ** A first backup *)
Module FreshBackup.
Import Listing Walk Steps.

(** C4: a backup into an empty destination directory, from a source
    directory holding a single readable regular file [f], returns the name
    [GenerateName getTime] without error; the set directory of that name
    holds [f] with the source file's contents and nothing else: no
    manifest file is written. *)
Theorem Backup_fresh_single_file (source dest : path) (getTime : unit -> time)
    (s : fs) (f : string) (i : nat) :
  wf_fs s = true -> disjoint_paths source dest = true ->
  ReadDir dest s = Ok [] -> ReadDir source s = Ok [mkentry f false] ->
  Open (source ++ [f]) s = Ok (HFile i) ->
  exists s', Backup source dest getTime s = Done (GenerateName getTime, None) s' /\
    tree s' !! (dest ++ [GenerateName getTime]) = Some NDir /\
    file_at (dest ++ [GenerateName getTime; f]) s' = file_at (source ++ [f]) s /\
    (forall r, r <> [] -> r <> [f] -> tree s' !! (dest ++ GenerateName getTime :: r) = None).
Proof.
  intros Hwf Hd HRd HRs Ho.
  apply wf_fs_wellformed in Hwf. apply disjoint_paths_apart in Hd.
  set (name := GenerateName getTime). set (setp := dest ++ [name]).
  assert (Hdest : tree s !! dest = Some NDir) by (eapply ReadDir_ok_dir; eauto).
  assert (Hset : tree s !! setp = None).
  { destruct (tree s !! setp) as [v|] eqn:E; [exfalso | reflexivity].
    apply (proj2 (ReadDir_elem _ _ _ (mkentry name (is_dir v)) HRd)). eauto. }
  assert (Hunder : forall r, r <> [] -> tree s !! (setp ++ r) = None).
  { intros r Hr. destruct (tree s !! (setp ++ r)) eqn:E; [exfalso | reflexivity].
    pose proof (wellformed_prefix _ _ _ _ Hwf E Hr). congruence. }
  destruct (Open_file _ _ _ Ho) as [Hfile Hnr].
  assert (Hi : i < next_ino s) by (exact (proj2 Hwf _ _ Hfile)).
  set (s1 := set_tree (<[setp := NDir]> (tree s)) s).
  assert (HC : CreateEmptySet dest getTime s = Done (name, None) s1).
  { unfold CreateEmptySet.
    rewrite (bind_step _ _ _ _ _ (MkdirAll_new setp s (snoc_not_nil _ _) Hset
                                    ltac:(unfold setp; now rewrite parent_snoc))).
    reflexivity. }
  assert (Hag1 : forall r, tree s1 !! (source ++ r) = tree s !! (source ++ r)).
  { apply (links_under_apart dest).
    - now apply links_under_insert.
    - exact Hd. }
  assert (HR1 : ReadDir source s1 = Ok [mkentry f false])
    by (rewrite (ReadDir_agree _ _ _ Hag1); exact HRs).
  assert (Ho1 : Open (source ++ [f]) s1 = Ok (HFile i)).
  { rewrite (Open_agree _ s); [exact Ho | | reflexivity].
    rewrite <- (app_nil_r (source ++ [f])), <- app_assoc. apply Hag1. }
  assert (Hfree : tree s1 !! (setp ++ [f]) = None).
  { unfold s1, set_tree. cbn [tree]. rewrite lookup_insert_ne.
    - apply Hunder. discriminate.
    - intros E. apply (f_equal (@length string)) in E. rewrite length_app in E. simpl in E. lia. }
  assert (Hpar1 : tree s1 !! parent (setp ++ [f]) = Some NDir)
    by (rewrite parent_snoc; unfold s1, set_tree; cbn [tree]; apply lookup_insert_eq).
  pose proof (CopyFile_new _ _ _ _ Ho1 Hfree (snoc_not_nil _ _) Hpar1
                ltac:(unfold s1; simpl; lia)) as HCF.
  eexists. split.
  - unfold Backup.
    rewrite (bind_step _ _ _ _ _ (SetCreation.MkdirAll_existing_dir dest s Hdest)). cbv beta iota.
    rewrite (bind_step _ _ _ _ _ (get_step s)). cbv beta.
    assert (Hfl : FindLatestSet dest s = Ok String.EmptyString)
      by (unfold FindLatestSet; now rewrite HRd).
    rewrite Hfl. cbv beta iota.
    rewrite (bind_step _ _ _ _ _ HC). cbv beta iota zeta.
    rewrite String.eqb_refl.
    rewrite (bind_step (ret None) _ s1 None s1 eq_refl).
    rewrite (bind_step _ _ _ _ _ (get_step s1)). cbv beta.
    assert (HCopy : CopyFolder (walk_fuel s1) source setp s1 = Done None
      (mkfs (<[setp ++ [f] := NFile (next_ino s1)]> (tree s1))
            (<[next_ino s1 := contents i s1]> (<[next_ino s1 := String.EmptyString]> (data s1)))
            (noread s1) (S (next_ino s1)))).
    { unfold walk_fuel. rewrite (CopyFolder_S _ _ _ _ _ HR1).
      cbn [copy_items e_name e_dir]. now rewrite (bind_step _ _ _ _ _ HCF). }
    fold setp. rewrite (bind_step _ _ _ _ _ HCopy). reflexivity.
  - cbn [tree]. unfold s1, set_tree. cbn [tree data next_ino]. fold setp. split; [| split].
    + rewrite lookup_insert_ne; [apply lookup_insert_eq |].
      intros E. apply (f_equal (@length string)) in E. rewrite length_app in E. simpl in E. lia.
    + unfold file_at. rewrite Hfile.
      replace (dest ++ [name; f]) with (setp ++ [f]) by (unfold setp; now rewrite <- app_assoc).
      cbn [tree]. rewrite lookup_insert_eq. unfold contents. cbn [data].
      rewrite lookup_insert_eq. reflexivity.
    + intros r Hr Hrf.
      replace (dest ++ name :: r) with (setp ++ r) by (unfold setp; now rewrite <- app_assoc).
      cbn [tree]. rewrite !lookup_insert_ne.
      * now apply Hunder.
      * intros E. apply (f_equal (@length string)) in E. rewrite length_app in E.
        destruct r; [congruence | simpl in E; lia].
      * intros E. apply app_inv_head in E. congruence.
Qed.

(** Witness of C4: the spec's example, [testfile.txt] holding
    [backmeup susie] and a newline, backed up at 2024-01-01 00:00:00. *)
Lemma Backup_fresh_single_file_witness :
  exists s', Backup ["src"] ["backups"] Scenario.t2024 Scenario.single_fs =
               Done (GenerateName Scenario.t2024, None) s' /\
    tree s' !! (["backups"] ++ [GenerateName Scenario.t2024]) = Some NDir /\
    file_at (["backups"] ++ [GenerateName Scenario.t2024; "testfile.txt"%string]) s' =
      file_at (["src"] ++ ["testfile.txt"%string]) Scenario.single_fs /\
    (forall r, r <> [] -> r <> ["testfile.txt"%string] ->
       tree s' !! (["backups"] ++ GenerateName Scenario.t2024 :: r) = None).
Proof.
  apply (Backup_fresh_single_file ["src"] ["backups"] Scenario.t2024 Scenario.single_fs
           "testfile.txt" 0); vm_compute; reflexivity.
Defined.

End FreshBackup.

(** ** Contents of [CopyFolder] *)
Module CopyWalk.
Import Listing Walk Steps.

Lemma copies_in_refl R s : wellformed s -> copies_in R s s.
Proof.
  intros Hw. constructor; auto.
  - intros j H. congruence.
  - intros k1 k2 j H1 _ Hj. pose proof (proj2 Hw _ _ H1). lia.
Qed.

Lemma copies_in_trans R s1 s2 s3 :
  copies_in R s1 s2 -> copies_in R s2 s3 -> copies_in R s1 s3.
Proof.
  intros C1 C2. constructor.
  - intros k Hk. rewrite (ci_frame _ _ _ C2 k Hk). exact (ci_frame _ _ _ C1 k Hk).
  - intros k v Hk. exact (ci_mono _ _ _ C2 _ _ (ci_mono _ _ _ C1 _ _ Hk)).
  - intros j Hj. destruct (decide (data s3 !! j = data s2 !! j)) as [E|E].
    + rewrite E in Hj. destruct (ci_data _ _ _ C1 j Hj) as (k & Hk & Hf).
      exists k. split; [exact Hk | exact (ci_mono _ _ _ C2 _ _ Hf)].
    + exact (ci_data _ _ _ C2 j E).
  - rewrite (ci_noread _ _ _ C2). exact (ci_noread _ _ _ C1).
  - pose proof (ci_next _ _ _ C1). pose proof (ci_next _ _ _ C2). lia.
  - intros k j Hk. pose proof (ci_next _ _ _ C1) as N1.
    destruct (ci_new _ _ _ C2 k j Hk) as [H2 | [H2 Hj]].
    + exact (ci_new _ _ _ C1 k j H2).
    + right. split; [| lia]. destruct (tree s1 !! k) eqn:E; [| reflexivity].
      apply (ci_mono _ _ _ C1) in E. congruence.
  - intros k1 k2 j H1 H2 Hj. destruct (decide (next_ino s2 <= j)) as [Hn|Hn].
    + exact (ci_newinj _ _ _ C2 k1 k2 j H1 H2 Hn).
    + destruct (ci_new _ _ _ C2 k1 j H1) as [G1 | [_ G1]]; [| lia].
      destruct (ci_new _ _ _ C2 k2 j H2) as [G2 | [_ G2]]; [| lia].
      exact (ci_newinj _ _ _ C1 k1 k2 j G1 G2 Hj).
Qed.

Lemma copies_in_weaken (R R' : path -> Prop) s s' :
  (forall k, R k -> R' k) -> copies_in R s s' -> copies_in R' s s'.
Proof.
  intros HR C. constructor; try apply C.
  - intros k Hk. apply (ci_frame _ _ _ C). auto.
  - intros j Hj. destruct (ci_data _ _ _ C j Hj) as (k & Hk & Hf). eauto.
Qed.

Lemma copies_in_mkdir (R : path -> Prop) s k :
  R k -> tree s !! k = None -> wellformed s ->
  copies_in R s (set_tree (<[k := NDir]> (tree s)) s).
Proof.
  intros Hk Hn Hw. constructor; cbn [tree data noread next_ino set_tree].
  - intros k' Hk'. rewrite lookup_insert_ne; [reflexivity |]. intros <-. contradiction.
  - intros k' v Hv. rewrite lookup_insert_ne; [exact Hv |]. intros <-. congruence.
  - intros j Hj. congruence.
  - reflexivity.
  - lia.
  - intros k' j Hf. left. destruct (decide (k = k')) as [<-|Hne].
    + rewrite lookup_insert_eq in Hf. discriminate.
    + rewrite lookup_insert_ne in Hf by exact Hne. exact Hf.
  - intros k1 k2 j H1 _ Hj. exfalso. destruct (decide (k = k1)) as [<-|Hne].
    + rewrite lookup_insert_eq in H1. discriminate.
    + rewrite lookup_insert_ne in H1 by exact Hne. pose proof (proj2 Hw _ _ H1). lia.
Qed.

Lemma copies_in_file (R : path -> Prop) s s' k j :
  R k -> wellformed s -> tree s' = <[k := NFile j]> (tree s) -> noread s' = noread s ->
  (tree s !! k = Some (NFile j) /\ next_ino s' = next_ino s \/
   tree s !! k = None /\ j = next_ino s /\ next_ino s' = S (next_ino s)) ->
  (forall j', j' <> j -> data s' !! j' = data s !! j') ->
  copies_in R s s'.
Proof.
  intros Hk Hw Ht Hnr Hcase Hd. constructor.
  - intros k' Hk'. rewrite Ht, lookup_insert_ne; [reflexivity |]. intros <-. contradiction.
  - intros k' v Hv. rewrite Ht. destruct (decide (k = k')) as [<-|Hne].
    + rewrite lookup_insert_eq. destruct Hcase as [[E _] | [E _]]; congruence.
    + rewrite lookup_insert_ne by exact Hne. exact Hv.
  - intros j' Hj'. destruct (decide (j' = j)) as [->|Hne].
    + exists k. split; [exact Hk |]. rewrite Ht. apply lookup_insert_eq.
    + exfalso. exact (Hj' (Hd j' Hne)).
  - exact Hnr.
  - destruct Hcase as [[_ E] | (_ & _ & E)]; lia.
  - intros k' j' Hf. rewrite Ht in Hf. destruct (decide (k = k')) as [<-|Hne].
    + rewrite lookup_insert_eq in Hf. injection Hf as <-.
      destruct Hcase as [[E _] | (E & -> & _)]; [left; exact E | right; split; [exact E | lia]].
    + rewrite lookup_insert_ne in Hf by exact Hne. left. exact Hf.
  - intros k1 k2 j' H1 H2 Hj. rewrite Ht in H1, H2.
    destruct (decide (k = k1)) as [<-|Hne1].
    + destruct (decide (k = k2)) as [<-|Hne2]; [reflexivity |].
      rewrite lookup_insert_ne in H2 by exact Hne2. pose proof (proj2 Hw _ _ H2). lia.
    + rewrite lookup_insert_ne in H1 by exact Hne1. pose proof (proj2 Hw _ _ H1). lia.
Qed.

Lemma copies_in_src (R : path -> Prop) src dst s s' :
  copies_in R s s' -> (forall k, R k -> under dst k) -> apart src dst ->
  forall r, tree s' !! (src ++ r) = tree s !! (src ++ r).
Proof.
  intros C HR Ha r. apply (ci_frame _ _ _ C). intros Hk.
  destruct (HR _ Hk) as [r' E]. exact (Ha r r' E).
Qed.

Lemma under_names_under d ns k : under_names d ns k -> under d k.
Proof. intros (n & r & _ & ->). exists (n :: r). reflexivity. Qed.

Lemma under_names_cons d n ns k : under_names d ns k -> under_names d (n :: ns) k.
Proof. intros (m & r & Hm & ->). exists m, r. split; [right; exact Hm | reflexivity]. Qed.

Lemma under_names_app d n ns k : under_names d [n] k -> under_names d (n :: ns) k.
Proof. intros (m & r & [-> | []] & ->). exists m, r. split; [left | ]; reflexivity. Qed.

Lemma under_snoc d n k : under (d ++ [n]) k -> under_names d [n] k.
Proof. intros [r ->]. exists n, r. split; [left; reflexivity | apply app_cons_snoc]. Qed.

Lemma excl_preserved (R : path -> Prop) src dst s s' :
  apart src dst -> wellformed s -> excl src dst s ->
  (forall k, R k -> under dst k) -> copies_in R s s' -> excl src dst s'.
Proof.
  intros Ha Hw [E1 E2] HR C. split.
  - intros r1 r2 j H1 H2.
    destruct (ci_new _ _ _ C _ _ H1) as [G1 | [_ G1]];
    destruct (ci_new _ _ _ C _ _ H2) as [G2 | [_ G2]].
    + exact (E1 _ _ _ G1 G2).
    + pose proof (proj2 Hw _ _ G1). lia.
    + pose proof (proj2 Hw _ _ G2). lia.
    + exact (app_inv_head _ _ _ (ci_newinj _ _ _ C _ _ _ H1 H2 G1)).
  - intros r1 r2 j H1 H2.
    rewrite (copies_in_src _ _ _ _ _ C HR Ha) in H2.
    pose proof (proj2 Hw _ _ H2).
    destruct (ci_new _ _ _ C _ _ H1) as [G1 | [_ G1]]; [exact (E2 _ _ _ G1 H2) | lia].
Qed.

Lemma excl_sub src dst s n : excl src dst s -> excl (src ++ [n]) (dst ++ [n]) s.
Proof.
  intros [E1 E2]. split.
  - intros r1 r2 j H1 H2. rewrite app_cons_snoc in H1, H2.
    pose proof (E1 _ _ _ H1 H2) as E. injection E as E. exact E.
  - intros r1 r2 j H1 H2. rewrite app_cons_snoc in H1, H2. exact (E2 _ _ _ H1 H2).
Qed.

Lemma src_stable (R : path -> Prop) src dst s s' r i :
  apart src dst -> (forall k, R k -> under dst k) -> copies_in R s s' -> excl src dst s' ->
  tree s !! (src ++ r) = Some (NFile i) -> contents i s' = contents i s.
Proof.
  intros Ha HR C [_ E2] Hf. unfold contents.
  destruct (decide (data s' !! i = data s !! i)) as [E|E]; [now rewrite E |].
  exfalso. destruct (ci_data _ _ _ C i E) as (k & Hk & Hk').
  destruct (HR _ Hk) as [r1 ->].
  rewrite <- (copies_in_src _ _ _ _ _ C HR Ha) in Hf. exact (E2 _ _ _ Hk' Hf).
Qed.

Lemma item_stable src dst ns s s' n r j :
  copies_in (under_names dst ns) s s' -> excl src dst s' -> ~ In n ns ->
  tree s !! (dst ++ n :: r) = Some (NFile j) ->
  tree s' !! (dst ++ n :: r) = Some (NFile j) /\ contents j s' = contents j s.
Proof.
  intros C [E1 _] Hn Hf. pose proof (ci_mono _ _ _ C _ _ Hf) as Hf'.
  split; [exact Hf' |]. unfold contents.
  destruct (decide (data s' !! j = data s !! j)) as [E|E]; [now rewrite E |].
  exfalso. destruct (ci_data _ _ _ C j E) as (k & (m & r' & Hm & ->) & Hk).
  pose proof (E1 _ _ _ Hf' Hk) as Eq. injection Eq as <- _. contradiction.
Qed.

Lemma wellformed_file s s' k v :
  wellformed s -> tree s' = <[k := v]> (tree s) -> next_ino s <= next_ino s' ->
  (forall i, v = NFile i -> i < next_ino s') -> k <> [] ->
  tree s !! parent k = Some NDir -> (tree s !! k = None \/ tree s !! k = Some v) ->
  wellformed s'.
Proof.
  intros [Hp Hi] Ht Hn Hv Hk Hpar Hold. unfold wellformed. rewrite Ht. split.
  - intros k' v' Hk' Hne. destruct (decide (k = k')) as [<-|Hne'].
    + destruct (decide (k = parent k)) as [E|E].
      * rewrite <- E in Hpar |- *. rewrite lookup_insert_eq. destruct Hold; congruence.
      * rewrite lookup_insert_ne by exact E. exact Hpar.
    + rewrite lookup_insert_ne in Hk' by exact Hne'.
      pose proof (Hp _ _ Hk' Hne) as Hq.
      destruct (decide (k = parent k')) as [E|E].
      * rewrite <- E in Hq |- *. rewrite lookup_insert_eq. destruct Hold; congruence.
      * rewrite lookup_insert_ne by exact E. exact Hq.
  - intros k' i Hk'. destruct (decide (k = k')) as [<-|Hne'].
    + rewrite lookup_insert_eq in Hk'. injection Hk' as Hk'. exact (Hv i Hk').
    + rewrite lookup_insert_ne in Hk' by exact Hne'. pose proof (Hi _ _ Hk'). lia.
Qed.

Lemma CopyFile_done a b s u s' :
  CopyFile a b s = Done u s' ->
  exists i j, tree s !! a = Some (NFile i) /\ tree s' = <[b := NFile j]> (tree s) /\
    noread s' = noread s /\
    (forall j', j' <> j -> data s' !! j' = data s !! j') /\
    (i <> j -> contents j s' = contents i s) /\
    (tree s !! b = Some (NFile j) /\ next_ino s' = next_ino s \/
     tree s !! b = None /\ j = next_ino s /\ next_ino s' = S (next_ino s) /\
     b <> [] /\ tree s !! parent b = Some NDir).
Proof.
  intros H. unfold CopyFile in H. rewrite (bind_step _ _ _ _ _ (get_step s)) in H. cbv beta in H.
  destruct (Open a s) as [h|e] eqn:Ho; cbv iota in H; [| unfold fatal in H; discriminate H].
  apply bind_Done in H as (c & s1 & Hc & H).
  destruct c as [j|e]; cbv beta iota in H; [| unfold fatal in H; discriminate H].
  apply bind_Done in H as (w & s2 & Hw & H).
  destruct w as [len|e]; cbv beta iota in H; [| unfold fatal in H; discriminate H].
  unfold ret in H. injection H as _ <-.
  destruct h as [i|]; [| unfold Copy in Hw; discriminate Hw].
  destruct (Open_file _ _ _ Ho) as [Ha _].
  unfold Copy in Hw. injection Hw as _ <-.
  exists i, j. unfold Create in Hc.
  destruct (tree s !! b) as [[|j0]|] eqn:Eb; [discriminate Hc | |].
  - case_decide; [discriminate Hc |]. injection Hc as -> <-. unfold set_data, contents; cbn [tree data noread next_ino].
    rewrite insert_id by exact Eb.
    split; [exact Ha |]. split; [reflexivity |]. split; [reflexivity |]. split.
    + intros j' Hj'. rewrite !lookup_insert_ne by congruence. reflexivity.
    + split; [| left; split; reflexivity].
      intros Hij. rewrite lookup_insert_eq, lookup_insert_ne by congruence. reflexivity.
  - destruct b as [|x b']; destruct (tree s !! parent _) as [[|]|] eqn:Ep; try discriminate Hc.
    injection Hc as <- <-. unfold set_data, contents; cbn [tree data noread next_ino].
    split; [exact Ha |]. split; [reflexivity |]. split; [reflexivity |]. split.
    + intros j' Hj'. rewrite !lookup_insert_ne by congruence. reflexivity.
    + split.
      * intros Hij. rewrite lookup_insert_eq, lookup_insert_ne by congruence. reflexivity.
      * right. split; [reflexivity |]. split; [reflexivity |]. split; [reflexivity |].
        split; [discriminate | reflexivity].
Qed.

Lemma entry_of_key p m k e : entry_of p m k = Some e -> k = p ++ [e_name e].
Proof.
  unfold entry_of. destruct (child_name p k) eqn:E; [| discriminate].
  destruct (m !! k); [| discriminate]. intros [= <-]. now apply child_name_iff.
Qed.

Lemma omap_entry_NoDup p m ks : NoDup ks -> NoDup (map e_name (omap (entry_of p m) ks)).
Proof.
  induction 1 as [|k ks Hk Hnd IH]; [constructor |]. simpl.
  destruct (entry_of p m k) as [e|] eqn:E; [| exact IH].
  simpl. constructor; [| exact IH].
  intros Hin. apply list_elem_of_In, in_map_iff in Hin as (e' & Hn & He').
  apply list_elem_of_In, list_elem_of_omap in He' as (k' & Hk' & E').
  apply entry_of_key in E, E'. apply Hk.
  rewrite E, <- Hn, <- E'. exact Hk'.
Qed.

Lemma ReadDir_NoDup p s L : ReadDir p s = Ok L -> NoDup (map e_name L).
Proof.
  unfold ReadDir. destruct (tree s !! p) as [[|]|]; try discriminate. intros [= <-].
  rewrite (Permutation_map e_name (sort_entries_perm _)).
  apply omap_entry_NoDup. apply NoDup_elements.
Qed.

(** The loop of [CopyFolder] over the listing [L] of [src]. *)
Lemma copy_items_spec (rec : path -> path -> M (option error)) src dst s0 L :
  (forall n s e s', wellformed s -> excl (src ++ [n]) (dst ++ [n]) s ->
     rec (src ++ [n]) (dst ++ [n]) s = Done e s' ->
     e = None /\ copies_in (under (dst ++ [n])) s s' /\ wellformed s' /\
     copy_cov (src ++ [n]) (dst ++ [n]) s s' /\ copy_origin (src ++ [n]) (dst ++ [n]) s s') ->
  apart src dst -> wellformed s0 -> ReadDir src s0 = Ok L ->
  forall items s1 e s', (forall x, In x items -> In x L) -> NoDup (map e_name items) ->
  copies_in (under dst) s0 s1 -> wellformed s1 -> excl src dst s1 ->
  copy_items rec src dst items s1 = Done e s' ->
  e = None /\ copies_in (under_names dst (map e_name items)) s1 s' /\ wellformed s' /\
  copy_origin src dst s1 s' /\
  forall x, In x items -> copy_item_cov src dst s0 s' (e_name x).
Proof.
  intros Hrec Hap Hw0 HR items.
  induction items as [|[n d] rest IHi]; intros s1 e s' Hin Hnd Hc Hw Hex H.
  { cbn [copy_items] in H. unfold ret in H. injection H as <- <-.
    split; [reflexivity |]. split; [apply copies_in_refl; exact Hw |]. split; [exact Hw |].
    split; [intros k j Hk; left; exact Hk | intros x []]. }
  destruct (proj1 (ReadDir_elem _ _ _ (mkentry n d) HR) (Hin _ (or_introl eq_refl)))
    as (v & Hv & Hd). cbn [e_name e_dir] in Hv, Hd.
  assert (Hag : forall r, tree s1 !! (src ++ r) = tree s0 !! (src ++ r))
    by (apply (copies_in_src (under dst) src dst s0 s1); auto).
  assert (Hin' : forall x, In x rest -> In x L) by (intros; apply Hin; now right).
  cbn [map e_name] in Hnd. apply NoDup_cons in Hnd as [Hn0 Hnd'].
  assert (Hn : ~ In n (map e_name rest)) by (intros Hi; apply Hn0, list_elem_of_In, Hi).
  assert (Hn1 : under_names dst [n] (dst ++ [n])) by (exists n, []; split; [left |]; reflexivity).
  cbn [copy_items e_name e_dir] in H. destruct d.
  - (* a directory: os.Mkdir, then the recursive call *)
    destruct v as [|j0]; [| discriminate Hd].
    apply bind_Done in H as (e1 & s1a & Em & H).
    destruct e1 as [e1|]; cbv beta iota in H; [unfold fatal in H; discriminate H |].
    apply Mkdir_none in Em as (Hne & Habs & Hpar & Es1a).
    assert (C1a : copies_in (under_names dst [n]) s1 s1a)
      by (rewrite Es1a; apply copies_in_mkdir; assumption).
    assert (Hw1a : wellformed s1a)
      by (rewrite Es1a; apply wellformed_insert; auto; discriminate).
    assert (Hex1a : excl src dst s1a)
      by (eapply excl_preserved; [exact Hap | exact Hw | exact Hex | apply under_names_under | exact C1a]).
    apply bind_Done in H as (r & s2 & Er & H).
    destruct (Hrec n s1a r s2 Hw1a (excl_sub _ _ _ _ Hex1a) Er) as (-> & C2 & Hw2 & Hcov2 & Hor2).
    cbv beta iota in H.
    assert (C12 : copies_in (under_names dst [n]) s1 s2)
      by (eapply copies_in_trans; [exact C1a | eapply copies_in_weaken; [apply under_snoc | exact C2]]).
    assert (Hex2 : excl src dst s2)
      by (eapply excl_preserved; [exact Hap | exact Hw | exact Hex | apply under_names_under | exact C12]).
    assert (C02 : copies_in (under dst) s0 s2)
      by (eapply copies_in_trans; [exact Hc | eapply copies_in_weaken; [apply under_names_under | exact C12]]).
    assert (C01a : copies_in (under dst) s0 s1a)
      by (eapply copies_in_trans; [exact Hc | eapply copies_in_weaken; [apply under_names_under | exact C1a]]).
    destruct (IHi s2 e s' Hin' Hnd' C02 Hw2 Hex2 H) as (He & C' & Hw' & Hor' & Hcov').
    assert (Hex' : excl src dst s')
      by (eapply excl_preserved; [exact Hap | exact Hw2 | exact Hex2 | apply under_names_under | exact C']).
    assert (Hag1a : forall r, tree s1a !! (src ++ r) = tree s1 !! (src ++ r))
      by (apply (copies_in_src _ src dst s1 s1a C1a); [apply under_names_under | exact Hap]).
    assert (Hag2 : forall r, tree s2 !! (src ++ r) = tree s1 !! (src ++ r))
      by (apply (copies_in_src _ src dst s1 s2 C12); [apply under_names_under | exact Hap]).
    split; [exact He |].
    split.
    { cbn [map e_name]. eapply copies_in_trans; eapply copies_in_weaken;
        [| exact C12 | | exact C']; intros k Hk;
        [apply under_names_app; exact Hk | apply under_names_cons; exact Hk]. }
    split; [exact Hw' |]. split.
    + intros k j Hk. destruct (Hor' k j Hk) as [H2 | (r' & i & -> & Hs)].
      * destruct (Hor2 k j H2) as [H1a | (r' & i & -> & Hs)].
        -- left. rewrite Es1a in H1a. cbn [tree set_tree] in H1a.
           destruct (decide (dst ++ [n] = k)) as [<-|Hne'].
           ++ rewrite lookup_insert_eq in H1a. discriminate.
           ++ rewrite lookup_insert_ne in H1a by exact Hne'. exact H1a.
        -- right. exists (n :: r'), i. split; [apply app_cons_snoc |].
           rewrite <- Hag1a, <- app_cons_snoc. exact Hs.
      * right. exists r', i. split; [reflexivity |]. rewrite <- Hag2. exact Hs.
    + intros x [<- | Hx]; cbn [e_name]; [| exact (Hcov' x Hx)].
      intros r i Hf.
      assert (Hf1a : tree s1a !! ((src ++ [n]) ++ r) = Some (NFile i))
        by (rewrite app_cons_snoc, Hag1a, Hag; exact Hf).
      destruct (Hcov2 r i Hf1a) as (j & Hj & Hcj). rewrite app_cons_snoc in Hj.
      destruct (item_stable src dst (map e_name rest) s2 s' n r j C' Hex' Hn Hj) as [Hj' Hcj'].
      exists j. split; [exact Hj' |]. rewrite Hcj', Hcj.
      exact (src_stable (under dst) src dst s0 s1a (n :: r) i Hap (fun k Hk => Hk) C01a Hex1a Hf).
  - (* a regular file: CopyFile *)
    destruct v as [|i0]; [discriminate Hd |].
    apply bind_Done in H as (u & s2 & Hcf & H). cbv beta in H.
    destruct (CopyFile_done _ _ _ _ _ Hcf) as (i & j & Ha & Ht & Hnr & Hdat & Hcont & Hcase).
    rewrite Hag, Hv in Ha. injection Ha as ->.
    assert (Hv1 : tree s1 !! (src ++ [n]) = Some (NFile i)) by (rewrite Hag; exact Hv).
    assert (Hij : i <> j).
    { destruct Hcase as [[Eb _] | (_ & -> & _)].
      - intros <-. exact (proj2 Hex [n] [n] i Eb Hv1).
      - pose proof (proj2 Hw _ _ Hv1). lia. }
    assert (C12 : copies_in (under_names dst [n]) s1 s2).
    { apply (copies_in_file _ s1 s2 (dst ++ [n]) j Hn1 Hw Ht Hnr); [| exact Hdat].
      destruct Hcase as [[A B] | (A & B & C & _)]; [left; auto | right; auto]. }
    assert (Hw2 : wellformed s2).
    { apply (wellformed_file s1 s2 (dst ++ [n]) (NFile j) Hw Ht).
      - pose proof (ci_next _ _ _ C12). lia.
      - intros i' [= <-]. destruct Hcase as [[Eb ->] | (_ & -> & -> & _)];
          [exact (proj2 Hw _ _ Eb) | lia].
      - apply snoc_not_nil.
      - destruct Hcase as [[Eb _] | (_ & _ & _ & _ & Hp)]; [| exact Hp].
        exact (proj1 Hw _ _ Eb (snoc_not_nil _ _)).
      - destruct Hcase as [[Eb _] | (Eb & _)]; [right | left]; exact Eb. }
    assert (Hex2 : excl src dst s2)
      by (eapply excl_preserved; [exact Hap | exact Hw | exact Hex | apply under_names_under | exact C12]).
    assert (C02 : copies_in (under dst) s0 s2)
      by (eapply copies_in_trans; [exact Hc | eapply copies_in_weaken; [apply under_names_under | exact C12]]).
    destruct (IHi s2 e s' Hin' Hnd' C02 Hw2 Hex2 H) as (He & C' & Hw' & Hor' & Hcov').
    assert (Hex' : excl src dst s')
      by (eapply excl_preserved; [exact Hap | exact Hw2 | exact Hex2 | apply under_names_under | exact C']).
    assert (Hag2 : forall r, tree s2 !! (src ++ r) = tree s1 !! (src ++ r))
      by (apply (copies_in_src _ src dst s1 s2 C12); [apply under_names_under | exact Hap]).
    split; [exact He |].
    split.
    { cbn [map e_name]. eapply copies_in_trans; eapply copies_in_weaken;
        [| exact C12 | | exact C']; intros k Hk;
        [apply under_names_app; exact Hk | apply under_names_cons; exact Hk]. }
    split; [exact Hw' |]. split.
    + intros k j' Hk. destruct (Hor' k j' Hk) as [H2 | (r' & i' & -> & Hs)].
      * rewrite Ht in H2. destruct (decide (dst ++ [n] = k)) as [<-|Hne'].
        -- right. exists [n], i. split; [reflexivity | exact Hv1].
        -- left. rewrite lookup_insert_ne in H2 by exact Hne'. exact H2.
      * right. exists r', i'. split; [reflexivity |]. rewrite <- Hag2. exact Hs.
    + intros x [<- | Hx]; cbn [e_name]; [| exact (Hcov' x Hx)].
      intros [|m r] i' Hf.
      * rewrite Hv in Hf. injection Hf as <-.
        assert (Hj2 : tree s2 !! (dst ++ [n]) = Some (NFile j))
          by (rewrite Ht; apply lookup_insert_eq).
        destruct (item_stable src dst (map e_name rest) s2 s' n [] j C' Hex' Hn Hj2) as [Hj' Hcj'].
        exists j. split; [exact Hj' |]. rewrite Hcj', (Hcont Hij).
        exact (src_stable (under dst) src dst s0 s1 [n] i Hap (fun k Hk => Hk) Hc Hex Hv).
      * exfalso. assert (Hd0 : tree s0 !! (src ++ [n]) = Some NDir).
        { eapply wellformed_prefix; [exact Hw0 | rewrite app_cons_snoc; exact Hf | discriminate]. }
        congruence.
Qed.

Lemma CopyFolder_spec fuel : forall src dst s e s',
  apart src dst -> wellformed s -> excl src dst s ->
  CopyFolder fuel src dst s = Done e s' ->
  e = None /\ copies_in (under dst) s s' /\ wellformed s' /\
  copy_cov src dst s s' /\ copy_origin src dst s s'.
Proof.
  induction fuel as [|fuel IH]; intros src dst s e s' Hap Hw Hex H;
    cbn [CopyFolder] in H; [unfold out_of_fuel in H; discriminate H |].
  rewrite (bind_step _ _ _ _ _ (get_step s)) in H. cbv beta in H.
  destruct (ReadDir src s) as [L|err] eqn:HR; cbv iota in H; [| unfold fatal in H; discriminate H].
  destruct (copy_items_spec (CopyFolder fuel) src dst s L
              (fun n s1 e1 s2 Hw1 Hex1 H1 =>
                 IH (src ++ [n]) (dst ++ [n]) s1 e1 s2 (apart_app _ _ _ Hap) Hw1 Hex1 H1)
              Hap Hw HR L s e s' (fun x Hx => Hx) (ReadDir_NoDup _ _ _ HR)
              (copies_in_refl _ _ Hw) Hw Hex H) as (He & C & Hw' & Hor & Hcov).
  split; [exact He |].
  split; [eapply copies_in_weaken; [apply under_names_under | exact C] |].
  split; [exact Hw' |]. split; [| exact Hor].
  intros [|n r] i Hf.
  - rewrite app_nil_r in Hf. apply ReadDir_ok_dir in HR. congruence.
  - destruct (child_exists _ _ _ _ _ Hw Hf) as (v & Hv).
    refine (Hcov (mkentry n (is_dir v)) _ r i Hf).
    apply (proj2 (ReadDir_elem _ _ _ _ HR)). eauto.
Qed.

End CopyWalk.

(** ** A backup run over an earlier set *)
Module Rerun.
Import Listing Walk Steps CopyWalk.

Lemma Link_some a b s e s' : Link a b s = Done (Some e) s' -> s' = s.
Proof.
  unfold Link. destruct (tree s !! a) as [[|i]|]; try congruence.
  destruct (tree s !! b); [congruence |].
  destruct b as [|c b']; destruct (tree s !! parent _) as [[|]|]; congruence.
Qed.

Lemma links_origin_trans src dst s1 s2 s3 :
  links_under dst s1 s2 -> apart src dst ->
  links_origin src dst s1 s2 -> links_origin src dst s2 s3 -> links_origin src dst s1 s3.
Proof.
  intros Hu Hap O1 O2 k j Hk. destruct (O2 k j Hk) as [H2 | (r & -> & Hs)].
  - exact (O1 k j H2).
  - right. exists r. split; [reflexivity |].
    rewrite <- (links_under_apart _ _ _ _ Hu Hap). exact Hs.
Qed.

(** The loop of [HardLinkCopy], whatever error it returns. *)
Lemma link_items_frame (rec : path -> path -> M (option error)) src dst :
  (forall n s e s', wellformed s -> rec (src ++ [n]) (dst ++ [n]) s = Done e s' ->
     links_under (dst ++ [n]) s s' /\ wellformed s' /\
     links_origin (src ++ [n]) (dst ++ [n]) s s') ->
  apart src dst ->
  forall items s1 e s', wellformed s1 -> link_items rec src dst items s1 = Done e s' ->
  links_under dst s1 s' /\ wellformed s' /\ links_origin src dst s1 s'.
Proof.
  intros Hrec Hap items.
  induction items as [|[n d] rest IHi]; intros s1 e s' Hw H.
  { cbn [link_items] in H. unfold ret in H. injection H as _ <-.
    split; [apply links_under_refl |]. split; [exact Hw |]. intros k j Hk; left; exact Hk. }
  cbn [link_items e_name e_dir] in H. destruct d.
  - apply bind_Done in H as (e1 & s1a & Em & H).
    destruct e1 as [e1|]; cbv beta iota in H; [unfold fatal in H; discriminate H |].
    apply Mkdir_none in Em as (Hne & Habs & Hpar & Es1a).
    assert (Hu1a : links_under dst s1 s1a) by (rewrite Es1a; now apply links_under_insert).
    assert (Hw1a : wellformed s1a)
      by (rewrite Es1a; apply wellformed_insert; auto; discriminate).
    assert (O1a : links_origin src dst s1 s1a).
    { intros k j Hk. left. rewrite Es1a in Hk. cbn [tree set_tree] in Hk.
      destruct (decide (dst ++ [n] = k)) as [<-|Hne'].
      - rewrite lookup_insert_eq in Hk. discriminate.
      - rewrite lookup_insert_ne in Hk by exact Hne'. exact Hk. }
    apply bind_Done in H as (r & s2 & Er & H).
    destruct (Hrec n s1a r s2 Hw1a Er) as (Hu2 & Hw2 & O2).
    assert (Hu12 : links_under dst s1 s2)
      by (eapply links_under_trans; [exact Hu1a | eapply links_under_app; exact Hu2]).
    assert (O12 : links_origin src dst s1 s2).
    { apply (links_origin_trans src dst s1 s1a s2 Hu1a Hap O1a).
      intros k j Hk. destruct (O2 k j Hk) as [H1 | (r' & -> & Hs)]; [left; exact H1 |].
      right. exists (n :: r'). split; [apply app_cons_snoc | rewrite <- (app_cons_snoc src n r'); exact Hs]. }
    destruct r as [err|]; cbv beta iota in H.
    + unfold ret in H. injection H as _ <-. auto.
    + destruct (IHi s2 e s' Hw2 H) as (Hu' & Hw' & O').
      split; [eapply links_under_trans; eauto |]. split; [exact Hw' |].
      exact (links_origin_trans src dst s1 s2 s' Hu12 Hap O12 O').
  - apply bind_Done in H as (e1 & s1a & El & H).
    destruct e1 as [err|]; cbv beta iota in H.
    + apply Link_some in El as ->. unfold ret in H. injection H as _ <-.
      split; [apply links_under_refl |]. split; [exact Hw |]. intros k j Hk; left; exact Hk.
    + apply Link_none in El as (i & Hi & Hne & Habs & Hpar & Es1a).
      assert (Hu1a : links_under dst s1 s1a) by (rewrite Es1a; now apply links_under_insert).
      assert (Hw1a : wellformed s1a).
      { rewrite Es1a. apply wellformed_insert; auto.
        intros i' E. injection E as <-. exact (proj2 Hw _ _ Hi). }
      assert (O1a : links_origin src dst s1 s1a).
      { intros k j Hk. rewrite Es1a in Hk. cbn [tree set_tree] in Hk.
        destruct (decide (dst ++ [n] = k)) as [<-|Hne'].
        - rewrite lookup_insert_eq in Hk. injection Hk as <-.
          right. exists [n]. split; [reflexivity | exact Hi].
        - left. rewrite lookup_insert_ne in Hk by exact Hne'. exact Hk. }
      destruct (IHi s1a e s' Hw1a H) as (Hu' & Hw' & O').
      split; [eapply links_under_trans; eauto |]. split; [exact Hw' |].
      exact (links_origin_trans src dst s1 s1a s' Hu1a Hap O1a O').
Qed.

Lemma HardLinkCopy_frame fuel : forall src dst s e s',
  apart src dst -> wellformed s -> HardLinkCopy fuel src dst s = Done e s' ->
  links_under dst s s' /\ wellformed s' /\ links_origin src dst s s'.
Proof.
  induction fuel as [|fuel IH]; intros src dst s e s' Hap Hw H;
    cbn [HardLinkCopy] in H; [unfold out_of_fuel in H; discriminate H |].
  rewrite (bind_step _ _ _ _ _ (get_step s)) in H. cbv beta in H.
  destruct (ReadDir src s) as [L|err] eqn:HR; cbv iota in H; [| unfold fatal in H; discriminate H].
  exact (link_items_frame (HardLinkCopy fuel) src dst
           (fun n s1 e1 s2 Hw1 H1 => IH (src ++ [n]) (dst ++ [n]) s1 e1 s2 (apart_app _ _ _ Hap) Hw1 H1)
           Hap L s e s' Hw H).
Qed.

Lemma files_under_spec d s r j :
  (r, j) ∈ files_under d s <-> tree s !! (d ++ r) = Some (NFile j).
Proof.
  unfold files_under. rewrite list_elem_of_omap. split.
  - intros ([k v] & Hkv & E). apply elem_of_map_to_list in Hkv. simpl in E.
    destruct v as [|j']; [discriminate |].
    destruct (strip_prefix d k) as [r'|] eqn:Es; [| discriminate].
    injection E as <- <-. apply strip_prefix_some in Es. subst k. exact Hkv.
  - intros H. exists (d ++ r, NFile j). split; [apply elem_of_map_to_list; exact H |].
    simpl. now rewrite strip_prefix_app.
Qed.

Lemma no_shared_inode_spec d e s :
  no_shared_inode d e s = true ->
  forall r1 r2 j, tree s !! (d ++ r1) = Some (NFile j) -> tree s !! (e ++ r2) = Some (NFile j) -> False.
Proof.
  unfold no_shared_inode. rewrite forallb_forall. intros H r1 r2 j H1 H2.
  assert (I1 : In (r1, j) (files_under d s)) by (apply list_elem_of_In, files_under_spec; exact H1).
  assert (I2 : In (r2, j) (files_under e s)) by (apply list_elem_of_In, files_under_spec; exact H2).
  specialize (H _ I1). rewrite forallb_forall in H. specialize (H _ I2).
  simpl in H. rewrite Nat.eqb_refl in H. discriminate.
Qed.

Lemma sets_link_free_spec d s :
  sets_link_free d s = true ->
  forall n r1 r2 j, tree s !! (d ++ n :: r1) = Some (NFile j) ->
    tree s !! (d ++ n :: r2) = Some (NFile j) -> r1 = r2.
Proof.
  unfold sets_link_free. rewrite forallb_forall. intros H n r1 r2 j H1 H2.
  assert (I1 : In (n :: r1, j) (files_under d s))
    by (apply list_elem_of_In, files_under_spec; exact H1).
  assert (I2 : In (n :: r2, j) (files_under d s))
    by (apply list_elem_of_In, files_under_spec; exact H2).
  specialize (H _ I1). rewrite forallb_forall in H. specialize (H _ I2).
  simpl in H. rewrite Nat.eqb_refl, (bool_decide_eq_true_2 (Some n = Some n) eq_refl) in H.
  simpl in H. apply bool_decide_eq_true_1 in H. injection H as H. exact H.
Qed.

Lemma FindLatestSet_found dest s last :
  FindLatestSet dest s = Ok last -> last <> String.EmptyString ->
  exists v, tree s !! (dest ++ [last]) = Some v.
Proof.
  intros Hf Hne. destruct (ReadDir dest s) as [L|e] eqn:HR;
    [| unfold FindLatestSet in Hf; rewrite HR in Hf; discriminate Hf].
  rewrite (LatestSet.FindLatestSet_unfold _ _ _ HR) in Hf.
  destruct (filter (fun info => IsBackupSetName (e_name info) = true) L) as [|f F] eqn:EF;
    injection Hf as <-; [congruence |].
  assert (Hx : In (List.last (f :: F) (mkentry String.EmptyString false)) L).
  { assert (Hx : In (List.last (f :: F) (mkentry String.EmptyString false))
                    (filter (fun info => IsBackupSetName (e_name info) = true) L))
      by (rewrite EF; apply last_in; discriminate).
    apply list_elem_of_In, list_elem_of_filter in Hx as [_ Hx].
    apply list_elem_of_In. exact Hx. }
  destruct (proj1 (ReadDir_elem _ _ _ _ HR) Hx) as (v & Hv & _). eauto.
Qed.

(** A completed run [Backup source dest] over a destination that may hold
    earlier sets, on a well-formed file system where [source] and [dest] lie
    outside each other, the new set does not exist yet, no source file is a
    link to a file under [dest], and no set holds two links to one inode:
    the run returns [GenerateName getTime] without error; every regular
    file [source/r] has a copy at [dest/name/r] holding its current
    contents; and every regular file of the new set is at the relative path
    of a source file, or is the file of the latest set at that relative
    path (so no other file, such as a manifest, is written). *)
Theorem Backup_copies_current_contents (source dest : path) (getTime : unit -> time)
    (s s' : fs) (name : string) (e : option error) :
  wf_fs s = true -> disjoint_paths source dest = true ->
  tree s !! dest = Some NDir -> tree s !! (dest ++ [GenerateName getTime]) = None ->
  no_shared_inode source dest s = true -> sets_link_free dest s = true ->
  Backup source dest getTime s = Done (name, e) s' ->
  name = GenerateName getTime /\ e = None /\
  (forall r i, tree s !! (source ++ r) = Some (NFile i) ->
     file_at (dest ++ name :: r) s' = Some (contents i s)) /\
  (forall r j, tree s' !! (dest ++ name :: r) = Some (NFile j) ->
     (exists i, tree s !! (source ++ r) = Some (NFile i)) \/
     (exists last, FindLatestSet dest s = Ok last /\
        tree s !! (dest ++ last :: r) = Some (NFile j))).
Proof.
  intros Hwf Hd Hdest Hset Hsh Hfree HB.
  apply wf_fs_wellformed in Hwf. apply disjoint_paths_apart in Hd.
  pose proof (no_shared_inode_spec _ _ _ Hsh) as Hsh'.
  pose proof (sets_link_free_spec _ _ Hfree) as Hsets.
  set (name0 := GenerateName getTime) in *. set (setp := dest ++ [name0]) in *.
  assert (Hunder : forall r, r <> [] -> tree s !! (setp ++ r) = None).
  { intros r Hr. destruct (tree s !! (setp ++ r)) eqn:E; [exfalso | reflexivity].
    pose proof (wellformed_prefix _ _ _ _ Hwf E Hr). congruence. }
  set (s1 := set_tree (<[setp := NDir]> (tree s)) s).
  assert (HC : CreateEmptySet dest getTime s = Done (name0, None) s1).
  { unfold CreateEmptySet.
    rewrite (bind_step _ _ _ _ _ (MkdirAll_new setp s (snoc_not_nil _ _) Hset
                                    ltac:(unfold setp; now rewrite parent_snoc))).
    reflexivity. }
  assert (Hw1 : wellformed s1).
  { apply wellformed_insert; [exact Hwf | apply snoc_not_nil | exact Hset | |].
    - unfold setp. rewrite parent_snoc. exact Hdest.
    - intros i' E. discriminate E. }
  assert (Hu1 : links_under dest s s1) by (unfold s1, setp; now apply links_under_insert).
  assert (Hno1 : forall r j, tree s1 !! (setp ++ r) <> Some (NFile j)).
  { intros r j. unfold s1. cbn [tree set_tree]. destruct r as [|x r].
    - rewrite app_nil_r, lookup_insert_eq. discriminate.
    - rewrite lookup_insert_ne.
      + rewrite Hunder; discriminate.
      + intros E. apply (f_equal (@length string)) in E. rewrite length_app in E.
        simpl in E. lia. }
  assert (Hsp : apart source setp).
  { intros r r' E. unfold setp in E. rewrite app_cons_snoc in E. exact (Hd _ _ E). }
  unfold Backup in HB.
  rewrite (bind_step _ _ _ _ _ (SetCreation.MkdirAll_existing_dir dest s Hdest)) in HB.
  cbv beta iota in HB.
  rewrite (bind_step _ _ _ _ _ (get_step s)) in HB. cbv beta in HB.
  destruct (FindLatestSet dest s) as [last|err] eqn:Hfl; cbv iota in HB;
    [| unfold fatal in HB; discriminate HB].
  rewrite (bind_step _ _ _ _ _ HC) in HB. cbv beta iota zeta in HB. fold setp in HB.
  apply bind_Done in HB as (u & s2 & Hhl & HB). cbv beta in HB.
  assert (F2 : links_under setp s1 s2 /\ wellformed s2 /\
            forall r j, tree s2 !! (setp ++ r) = Some (NFile j) ->
              tree s !! (dest ++ last :: r) = Some (NFile j)).
  { revert Hhl. destruct (String.eqb_spec last String.EmptyString) as [El|El]; intros Hhl.
    - unfold ret in Hhl. injection Hhl as _ <-.
      split; [apply links_under_refl |]. split; [exact Hw1 |].
      intros r j H. exfalso. exact (Hno1 r j H).
    - rewrite (bind_step _ _ _ _ _ (get_step s1)) in Hhl. cbv beta in Hhl.
      destruct (FindLatestSet_found _ _ _ Hfl El) as (v & Hv).
      assert (Hln : last <> name0) by (intros ->; fold setp in Hv; congruence).
      assert (Hap : apart (dest ++ [last]) setp).
      { intros r r' E. unfold setp in E. rewrite !app_cons_snoc in E.
        apply app_inv_head in E. injection E as E _. exact (Hln E). }
      destruct (HardLinkCopy_frame _ _ _ _ _ _ Hap Hw1 Hhl) as (Hu & Hw2 & O).
      split; [exact Hu |]. split; [exact Hw2 |].
      intros r j Hj. destruct (O _ _ Hj) as [H1 | (r' & E & Hs)];
        [exfalso; exact (Hno1 r j H1) |].
      apply app_inv_head in E. subst r'.
      rewrite app_cons_snoc in Hs. unfold s1 in Hs. cbn [tree set_tree] in Hs.
      rewrite lookup_insert_ne in Hs; [exact Hs |].
      intros E. unfold setp in E. apply app_inv_head in E. injection E as E _.
      exact (Hln (eq_sym E)). }
  destruct F2 as (Hu2 & Hw2 & O2).
  rewrite (bind_step _ _ _ _ _ (get_step s2)) in HB. cbv beta in HB.
  apply bind_Done in HB as (err & s3 & Hcf & HB). unfold ret in HB.
  injection HB as <- <- <-.
  assert (Hag : forall r, tree s2 !! (source ++ r) = tree s !! (source ++ r)).
  { intros r. rewrite (links_under_apart _ _ _ _ Hu2 Hsp r).
    exact (links_under_apart _ _ _ _ Hu1 Hd r). }
  assert (Hdata : data s2 = data s) by (rewrite (lu_data _ _ _ Hu2); reflexivity).
  assert (Hex : excl source setp s2).
  { split.
    - intros r1 r2 j H1 H2. exact (Hsets _ _ _ _ (O2 _ _ H1) (O2 _ _ H2)).
    - intros r1 r2 j H1 H2. rewrite Hag in H2. exact (Hsh' _ _ _ H2 (O2 _ _ H1)). }
  destruct (CopyFolder_spec _ _ _ _ _ _ Hsp Hw2 Hex Hcf) as (-> & C & Hw3 & Hcov & Hor).
  split; [reflexivity |]. split; [reflexivity |]. split.
  - intros r i Hi. rewrite <- Hag in Hi. destruct (Hcov r i Hi) as (j & Hj & Hcj).
    unfold file_at. replace (dest ++ name0 :: r) with (setp ++ r)
      by (unfold setp; apply app_cons_snoc).
    rewrite Hj, Hcj. unfold contents. rewrite Hdata. reflexivity.
  - intros r j Hj. replace (dest ++ name0 :: r) with (setp ++ r) in Hj
      by (unfold setp; apply app_cons_snoc).
    destruct (Hor _ _ Hj) as [H2 | (r' & i & E & Hs)].
    + right. exists last. split; [reflexivity | exact (O2 _ _ H2)].
    + left. apply app_inv_head in E. subst r'. exists i. rewrite <- Hag. exact Hs.
Qed.

(** Witness: the second run of the content-change scenario, after
    [linkme.txt] was rewritten to [hello again]. *)
Lemma Backup_copies_current_contents_witness :
  let s := Scenario.changed_fs in
  let s' := final (Backup ["src"] ["backups"] Scenario.t2 s) in
  GenerateName Scenario.t2 = GenerateName Scenario.t2 /\ @None error = None /\
  (forall r i, tree s !! (["src"] ++ r) = Some (NFile i) ->
     file_at (["backups"] ++ GenerateName Scenario.t2 :: r) s' = Some (contents i s)) /\
  (forall r j, tree s' !! (["backups"] ++ GenerateName Scenario.t2 :: r) = Some (NFile j) ->
     (exists i, tree s !! (["src"] ++ r) = Some (NFile i)) \/
     (exists last, FindLatestSet ["backups"] s = Ok last /\
        tree s !! (["backups"] ++ last :: r) = Some (NFile j))).
Proof.
  intros s s'.
  apply (Backup_copies_current_contents ["src"] ["backups"] Scenario.t2 s s'
           (GenerateName Scenario.t2) None); vm_compute; reflexivity.
Defined.

End Rerun.

(** ** What the copy operations return *)
Module Outcomes.
Import Walk Steps.

Lemma copy_items_none (rec : path -> path -> M (option error)) src dst :
  (forall a b s e s', rec a b s = Done e s' -> e = None) ->
  forall L s e s', copy_items rec src dst L s = Done e s' -> e = None.
Proof.
  intros Hrec L. induction L as [|it L IH]; intros s e s' H; cbn [copy_items] in H.
  - unfold ret in H. now injection H as <- _.
  - destruct (e_dir it).
    + apply bind_Done in H as (e0 & s1 & _ & H).
      destruct e0; [unfold fatal in H; discriminate H |].
      apply bind_Done in H as (r & s2 & Hr & H).
      rewrite (Hrec _ _ _ _ _ Hr) in H. exact (IH _ _ _ H).
    + apply bind_Done in H as (u & s1 & _ & H). exact (IH _ _ _ H).
Qed.

Lemma CopyFolder_none fuel : forall src dst s e s',
  CopyFolder fuel src dst s = Done e s' -> e = None.
Proof.
  induction fuel as [|fuel IH]; intros src dst s e s' H; cbn [CopyFolder] in H.
  - unfold out_of_fuel in H. discriminate H.
  - rewrite (bind_step _ _ _ _ _ (get_step s)) in H. cbv beta in H.
    destruct (ReadDir src s) as [L|err]; [| unfold fatal in H; discriminate H].
    exact (copy_items_none _ _ _ IH _ _ _ _ H).
Qed.

(** [CopyFolder] never returns a non-nil error: each failure inside the
    walk is a [log.Fatal], so its [return err] is never reached with an
    error, at any depth. *)
Theorem CopyFolder_returns_nil (fuel : nat) (source dest : path) (s s' : fs) (e : option error) :
  CopyFolder fuel source dest s = Done e s' -> e = None.
Proof. apply CopyFolder_none. Qed.

Lemma CopyFolder_returns_nil_witness :
  CopyFolder 3 ["src"] ["dst"]
    (final (Mkdir ["dst"] Scenario.linkme_fs)) =
    Done None (final (CopyFolder 3 ["src"] ["dst"] (final (Mkdir ["dst"] Scenario.linkme_fs)))) /\
  @None error = None.
Proof.
  split; [vm_compute; reflexivity |].
  apply (CopyFolder_returns_nil 3 ["src"] ["dst"] (final (Mkdir ["dst"] Scenario.linkme_fs))
           (final (CopyFolder 3 ["src"] ["dst"] (final (Mkdir ["dst"] Scenario.linkme_fs))))).
  vm_compute. reflexivity.
Defined.

Lemma CreateEmptySet_name dest g s n e s' :
  CreateEmptySet dest g s = Done (n, e) s' -> n = GenerateName g.
Proof.
  unfold CreateEmptySet. intros H. apply bind_Done in H as (x & s1 & _ & H).
  unfold ret in H. now injection H as <- _ _.
Qed.

(** Whenever [Backup] returns, it returns the name [GenerateName] gave
    the new set and a nil error: every error it meets is a
    [log.Fatal]. *)
Theorem Backup_returns_name_and_nil (source dest : path) (getTime : unit -> time)
    (s s' : fs) (name : string) (e : option error) :
  Backup source dest getTime s = Done (name, e) s' -> name = GenerateName getTime /\ e = None.
Proof.
  intros H. unfold Backup in H.
  apply bind_Done in H as (e0 & s0 & _ & H).
  destruct e0; [unfold fatal in H; discriminate H |].
  rewrite (bind_step _ _ _ _ _ (get_step s0)) in H. cbv beta in H.
  destruct (FindLatestSet dest s0) as [last|err]; [| unfold fatal in H; discriminate H].
  apply bind_Done in H as ([nm er] & s1 & Hc & H).
  destruct er; [unfold fatal in H; discriminate H |].
  apply CreateEmptySet_name in Hc. subst nm.
  apply bind_Done in H as (u & s2 & _ & H). cbv beta in H.
  rewrite (bind_step _ _ _ _ _ (get_step s2)) in H. cbv beta in H.
  apply bind_Done in H as (err & s3 & Hcf & H). unfold ret in H.
  injection H as <- <- _. split; [reflexivity |]. exact (CopyFolder_none _ _ _ _ _ _ Hcf).
Qed.

Lemma Backup_returns_name_and_nil_witness :
  GenerateName Scenario.t1 = GenerateName Scenario.t1 /\ @None error = None.
Proof.
  apply (Backup_returns_name_and_nil ["src"] ["backups"] Scenario.t1 Scenario.linkme_fs
           (final (Backup ["src"] ["backups"] Scenario.t1 Scenario.linkme_fs))).
  vm_compute. reflexivity.
Defined.

Lemma CopyFile_result a b s u s' :
  CopyFile a b s = Done u s' ->
  exists i j, tree s !! a = Some (NFile i) /\ (i ∉ noread s) /\
    tree s' = (<[b := NFile j]> (tree s)) /\
    data s' = <[j := if decide (i = j) then String.EmptyString else contents i s]> (data s) /\
    noread s' = noread s /\
    (tree s !! b = Some (NFile j) \/ tree s !! b = None /\ j = next_ino s).
Proof.
  intros H. unfold CopyFile in H. rewrite (bind_step _ _ _ _ _ (get_step s)) in H. cbv beta in H.
  destruct (Open a s) as [h|e] eqn:Ho; cbv iota in H; [| unfold fatal in H; discriminate H].
  apply bind_Done in H as (c & s1 & Hc & H).
  destruct c as [j|e]; cbv beta iota in H; [| unfold fatal in H; discriminate H].
  apply bind_Done in H as (w & s2 & Hw & H).
  destruct w as [len|e]; cbv beta iota in H; [| unfold fatal in H; discriminate H].
  unfold ret in H. injection H as _ <-.
  destruct h as [i|]; [| unfold Copy in Hw; discriminate Hw].
  destruct (Open_file _ _ _ Ho) as [Ha Hr].
  unfold Copy in Hw. injection Hw as _ <-.
  exists i, j. split; [exact Ha |]. split; [exact Hr |]. unfold Create in Hc.
  destruct (tree s !! b) as [[|j0]|] eqn:Eb; [discriminate Hc | |].
  - case_decide; [discriminate Hc |]. injection Hc as -> <-. unfold set_data, contents; cbn [tree data noread next_ino].
    rewrite insert_id by exact Eb. rewrite insert_insert_eq.
    split; [reflexivity |]. split; [| split; [reflexivity | left; reflexivity]].
    f_equal. case_decide as Hij.
    + subst. rewrite lookup_insert_eq. reflexivity.
    + rewrite lookup_insert_ne by congruence. reflexivity.
  - destruct b as [|x b']; destruct (tree s !! parent _) as [[|]|] eqn:Ep; try discriminate Hc.
    injection Hc as <- <-. unfold set_data, contents; cbn [tree data noread next_ino].
    rewrite insert_insert_eq.
    split; [reflexivity |]. split; [| split; [reflexivity | right; split; reflexivity]].
    f_equal. case_decide as Hij.
    + subst. rewrite lookup_insert_eq. reflexivity.
    + rewrite lookup_insert_ne by congruence. reflexivity.
Qed.

(** After [CopyFile source dest] returns, [dest] is a regular file that
    reads exactly what [source] reads in the final state.  In a well-formed
    state, unless [dest] already was a hard link to [source]'s inode (or
    [source] itself), [source] keeps the contents it had. *)
Theorem CopyFile_dest_matches_source (source dest : path) (s s' : fs) (u : unit) :
  CopyFile source dest s = Done u s' ->
  file_at dest s' = file_at source s' /\ file_at dest s' <> None /\
  (wf_fs s = true -> same_file source dest s = false -> file_at source s' = file_at source s).
Proof.
  intros H. destruct (CopyFile_result _ _ _ _ _ H) as (i & j & Ha & _ & Ht & Hd & _ & Hb).
  assert (Hdest : file_at dest s' = Some (contents j s')).
  { unfold file_at. rewrite Ht, lookup_insert_eq. reflexivity. }
  assert (Hj : contents j s' = if decide (i = j) then String.EmptyString else contents i s).
  { unfold contents at 1. rewrite Hd, lookup_insert_eq. reflexivity. }
  split; [| split; [rewrite Hdest; discriminate |]].
  - rewrite Hdest. unfold file_at. rewrite Ht.
    destruct (decide (source = dest)) as [->|Hne];
      [rewrite lookup_insert_eq; reflexivity |].
    rewrite lookup_insert_ne by congruence. rewrite Ha. f_equal. rewrite Hj.
    unfold contents at 2. rewrite Hd.
    case_decide as Hij; [subst; rewrite lookup_insert_eq; reflexivity |].
    rewrite lookup_insert_ne by congruence. reflexivity.
  - intros Hwf Hsf. apply wf_fs_wellformed in Hwf.
    unfold same_file in Hsf. rewrite Ha in Hsf.
    destruct (decide (source = dest)) as [->|Hne].
    { rewrite Ha, Nat.eqb_refl in Hsf. discriminate Hsf. }
    assert (Hij : i <> j).
    { intros <-. destruct Hb as [Hb | [_ Hn]].
      - rewrite Hb, Nat.eqb_refl in Hsf. discriminate Hsf.
      - subst. destruct Hwf as (_ & Hino). specialize (Hino _ _ Ha). lia. }
    unfold file_at. rewrite Ht, lookup_insert_ne by congruence. rewrite Ha. f_equal.
    unfold contents. rewrite Hd, lookup_insert_ne by congruence. reflexivity.
Qed.

(** Witness: the first file copy of [TestBackup]'s source. *)
Lemma CopyFile_dest_matches_source_witness :
  let s := final (Mkdir ["dst"] Scenario.linkme_fs) in
  let s' := final (CopyFile ["src"; "linkme.txt"] ["dst"; "linkme.txt"] s) in
  file_at ["dst"; "linkme.txt"] s' = file_at ["src"; "linkme.txt"] s' /\
  file_at ["dst"; "linkme.txt"] s' <> None /\
  (wf_fs s = true -> same_file ["src"; "linkme.txt"] ["dst"; "linkme.txt"] s = false ->
   file_at ["src"; "linkme.txt"] s' = file_at ["src"; "linkme.txt"] s).
Proof.
  intros s s'. apply (CopyFile_dest_matches_source _ _ s s' tt). vm_compute. reflexivity.
Defined.

(** When [dest] is already a hard link to [source]'s inode and
    [CopyFile source dest] returns, both paths read the empty string:
    [os.Create] truncates the shared inode before [io.Copy] reads it. *)
Theorem CopyFile_onto_own_link_empties (source dest : path) (s s' : fs) (u : unit) (i : nat) :
  tree s !! source = Some (NFile i) -> tree s !! dest = Some (NFile i) ->
  CopyFile source dest s = Done u s' ->
  file_at source s' = Some String.EmptyString /\ file_at dest s' = Some String.EmptyString.
Proof.
  intros Ha Hb H. destruct (CopyFile_result _ _ _ _ _ H) as (i' & j & Ha' & _ & Ht & Hd & _ & Hj).
  rewrite Ha in Ha'. injection Ha' as <-.
  assert (j = i) as ->.
  { destruct Hj as [Hj | [Hj _]]; rewrite Hb in Hj; [injection Hj as ->; reflexivity | discriminate Hj]. }
  assert (Hc : contents i s' = String.EmptyString).
  { unfold contents. rewrite Hd, lookup_insert_eq, decide_True by reflexivity. reflexivity. }
  unfold file_at. rewrite Ht, lookup_insert_eq, Hc. split; [| reflexivity].
  destruct (decide (source = dest)) as [->|Hne]; [rewrite lookup_insert_eq, Hc; reflexivity |].
  rewrite lookup_insert_ne by congruence. rewrite Ha, Hc. reflexivity.
Qed.

(** Witness: [linkme.txt] copied onto a hard link to it in the same folder. *)
Lemma CopyFile_onto_own_link_empties_witness :
  let s := final (Link ["src"; "linkme.txt"] ["src"; "link.txt"] Scenario.linkme_fs) in
  let s' := final (CopyFile ["src"; "linkme.txt"] ["src"; "link.txt"] s) in
  file_at ["src"; "linkme.txt"] s' = Some String.EmptyString /\
  file_at ["src"; "link.txt"] s' = Some String.EmptyString.
Proof.
  intros s s'. apply (CopyFile_onto_own_link_empties _ _ s s' tt 0); vm_compute; reflexivity.
Defined.

End Outcomes.


(** ** The language of set names and their order *)
Module Names.
Import Naming.

Lemma append_cons c s r : String.append (String.String c s) r = String.String c (String.append s r).
Proof. reflexivity. Qed.

Lemma append_empty r : String.append String.EmptyString r = r.
Proof. reflexivity. Qed.

Lemma append_nil s : String.append s String.EmptyString = s.
Proof. induction s as [|c s IH]; [reflexivity | rewrite append_cons, IH; reflexivity]. Qed.

Lemma match_lit_some lit s r : match_lit lit s = Some r <-> s = String.append lit r.
Proof.
  revert s. induction lit as [|a lit IH]; intros [|b s]; cbn [match_lit]; rewrite ?append_cons, ?append_empty.
  - split; congruence.
  - split; congruence.
  - split; discriminate.
  - destruct (Ascii.eqb_spec a b) as [<-|Hab].
    + rewrite IH. split; [intros ->; reflexivity | intros [= ->]; reflexivity].
    + split; [discriminate | intros [= E _]; congruence].
Qed.

Lemma match_digits_some k s r :
  match_digits k s = Some r <->
  exists d, String.length d = k /\ all_digits d = true /\ s = String.append d r.
Proof.
  revert s. induction k as [|k IH]; intros s; cbn [match_digits].
  - split.
    + intros [= ->]. exists String.EmptyString. auto.
    + intros ([|c d] & Hl & _ & ->); [reflexivity | discriminate Hl].
  - destruct s as [|c s].
    + split; [discriminate |]. intros ([|c d] & Hl & _ & E); discriminate.
    + destruct (is_digit c) eqn:Hc.
      * rewrite IH. split.
        -- intros (d & Hl & Hd & ->). exists (String.String c d). cbn [String.length all_digits].
           rewrite Hc, Hd. auto.
        -- intros ([|c' d] & Hl & Hd & E); [discriminate Hl |].
           rewrite append_cons in E.
           injection E as <- ->. cbn in Hl, Hd. apply andb_prop in Hd as [_ Hd].
           exists d. auto.
      * split; [discriminate |]. intros ([|c' d] & Hl & Hd & E); [discriminate Hl |].
        rewrite append_cons in E.
        injection E as <- _. cbn in Hd. rewrite Hc in Hd. discriminate Hd.
Qed.

Lemma match_end_true r : match_end r = true <-> r = String.EmptyString.
Proof. destruct r; cbn; split; congruence. Qed.

(** [IsBackupSetName] accepts exactly [dhb-set-], eight digits, [-] and six
    digits, with nothing before or after. *)
Theorem IsBackupSetName_iff (name : string) :
  IsBackupSetName name = true <->
  exists d t, String.length d = 8 /\ all_digits d = true /\
    String.length t = 6 /\ all_digits t = true /\
    name = String.append "dhb-set-" (String.append d (String.append "-" t)).
Proof.
  unfold IsBackupSetName. split.
  - destruct (match_lit "dhb-set-" name) as [r1|] eqn:E1; [| discriminate].
    destruct (match_digits 8 r1) as [r2|] eqn:E2; [| discriminate].
    destruct (match_lit "-" r2) as [r3|] eqn:E3; [| discriminate].
    destruct (match_digits 6 r3) as [r4|] eqn:E4; [| discriminate].
    intros H5. apply match_end_true in H5. subst r4.
    apply match_lit_some in E1, E3. apply match_digits_some in E2 as (d & Hd & Hdd & ->).
    apply match_digits_some in E4 as (t & Ht & Htd & ->).
    exists d, t. rewrite append_nil in E3. subst. auto.
  - intros (d & t & Hd & Hdd & Ht & Htd & ->).
    rewrite (proj2 (match_lit_some _ _ _) eq_refl).
    rewrite (proj2 (match_digits_some _ _ (String.append "-" t))) by eauto.
    rewrite (proj2 (match_lit_some _ _ _) eq_refl).
    rewrite (proj2 (match_digits_some 6 t String.EmptyString))
      by (exists t; rewrite append_nil; auto).
    reflexivity.
Qed.

Lemma string_compare_refl a : String.compare a a = Eq.
Proof.
  induction a as [|c a IH]; [reflexivity |]. cbn [String.compare].
  unfold Ascii.compare. rewrite N.compare_refl. exact IH.
Qed.

Lemma string_compare_app a1 a2 b1 b2 :
  String.length a1 = String.length a2 ->
  String.compare (String.append a1 b1) (String.append a2 b2) =
  match String.compare a1 a2 with Eq => String.compare b1 b2 | c => c end.
Proof.
  revert a2. induction a1 as [|c1 a1 IH]; intros [|c2 a2] Hl; try discriminate Hl.
  - reflexivity.
  - rewrite !append_cons. cbn [String.compare]. injection Hl as Hl.
    destruct (Ascii.compare c1 c2); [apply IH; exact Hl | reflexivity | reflexivity].
Qed.

Lemma digitZ_compare x y : Ascii.compare (digitZ x) (digitZ y) = Z.compare (x mod 10) (y mod 10).
Proof.
  unfold Ascii.compare, digitZ, digit_char.
  pose proof (Z.mod_pos_bound x 10 ltac:(lia)). pose proof (Z.mod_pos_bound y 10 ltac:(lia)).
  rewrite !N_ascii_embedding by lia.
  rewrite <- N2Z.inj_compare, !N2Z.inj_add, Z.add_compare_mono_l, !Z2N.id by lia.
  reflexivity.
Qed.

Lemma compare_div_mod x y b : (0 < b)%Z ->
  Z.compare x y = match Z.compare (x / b) (y / b) with Eq => Z.compare (x mod b) (y mod b) | c => c end.
Proof.
  intros Hb.
  pose proof (Z.div_mod x b ltac:(lia)). pose proof (Z.div_mod y b ltac:(lia)).
  pose proof (Z.mod_pos_bound x b Hb). pose proof (Z.mod_pos_bound y b Hb).
  destruct (Z.compare_spec (x / b) (y / b)) as [E|E|E].
  - destruct (Z.compare_spec (x mod b) (y mod b)); apply Z.compare_eq_iff || apply Z.compare_lt_iff
      || apply Z.compare_gt_iff; nia.
  - apply Z.compare_lt_iff. nia.
  - apply Z.compare_gt_iff. nia.
Qed.

Lemma digits2_compare x y : (0 <= x <= 99)%Z -> (0 <= y <= 99)%Z ->
  String.compare (digits2 x) (digits2 y) = Z.compare x y.
Proof.
  intros Hx Hy. unfold digits2. cbn [String.compare]. rewrite !digitZ_compare.
  rewrite (Z.mod_small (x / 10)), (Z.mod_small (y / 10)) by (split; [apply Z.div_pos | apply Z.div_lt_upper_bound]; lia).
  rewrite (compare_div_mod x y 10) by lia.
  destruct (Z.compare (x / 10) (y / 10)), (Z.compare (x mod 10) (y mod 10)); reflexivity.
Qed.

Lemma digitZ_mod a b : (a mod 10 = b mod 10)%Z -> digitZ a = digitZ b.
Proof. intros E. unfold digitZ. rewrite E. reflexivity. Qed.

Lemma digits4_split y : (0 <= y)%Z ->
  digits4 y = String.append (digits2 (y / 100)) (digits2 (y mod 100)).
Proof.
  intros Hy. unfold digits4, digits2. rewrite !append_cons, append_empty.
  rewrite (digitZ_mod (y / 1000) (y / 100 / 10)) by (rewrite Z.div_div by lia; reflexivity).
  rewrite (digitZ_mod (y / 10) (y mod 100 / 10)) by (Z.div_mod_to_equations; lia).
  rewrite (digitZ_mod y (y mod 100)) by (Z.div_mod_to_equations; lia).
  reflexivity.
Qed.

Lemma digits4_compare x y : (0 <= x <= 9999)%Z -> (0 <= y <= 9999)%Z ->
  String.compare (digits4 x) (digits4 y) = Z.compare x y.
Proof.
  intros Hx Hy. rewrite !digits4_split by lia.
  rewrite string_compare_app by reflexivity.
  rewrite !digits2_compare by (Z.div_mod_to_equations; lia).
  rewrite (compare_div_mod x y 100) by lia. reflexivity.
Qed.

Lemma compare_shift a a' b b' : (0 <= b < 100)%Z -> (0 <= b' < 100)%Z ->
  Z.compare (a * 100 + b) (a' * 100 + b') =
  match Z.compare a a' with Eq => Z.compare b b' | c => c end.
Proof.
  intros Hb Hb'. destruct (Z.compare_spec a a') as [->|E|E].
  - destruct (Z.compare_spec b b'); [apply Z.compare_eq_iff | apply Z.compare_lt_iff
      | apply Z.compare_gt_iff]; lia.
  - apply Z.compare_lt_iff. lia.
  - apply Z.compare_gt_iff. lia.
Qed.

Lemma GenerateName_digits (g : unit -> time) :
  (0 <= Year (g tt) <= 9999)%Z -> clock_fields_in_range (g tt) ->
  GenerateName g = spec_set_name (g tt).
Proof.
  intros Hy (Hmo & Hd & Hh & Hmi & Hs). unfold GenerateName, spec_set_name.
  rewrite fmt_0d_4, !fmt_0d_2 by lia. reflexivity.
Qed.

(** For times whose year has at most four digits, the byte order of set
    names (the order [ioutil.ReadDir] sorts by and [FindLatestSet] picks
    the last of) is the order of the times: comparing two names gives the
    comparison of [YYYYMMDDhhmmss]. In particular a later time gives a
    greater name, and two names are equal only for equal times. *)
Theorem GenerateName_order (g1 g2 : unit -> time) :
  (0 <= Year (g1 tt) <= 9999)%Z -> clock_fields_in_range (g1 tt) ->
  (0 <= Year (g2 tt) <= 9999)%Z -> clock_fields_in_range (g2 tt) ->
  String.compare (GenerateName g1) (GenerateName g2) =
    Z.compare (time_key (g1 tt)) (time_key (g2 tt)) /\
  String.leb (GenerateName g1) (GenerateName g2) =
    Z.leb (time_key (g1 tt)) (time_key (g2 tt)).
Proof.
  intros Hy1 Hc1 Hy2 Hc2.
  rewrite (GenerateName_digits g1), (GenerateName_digits g2) by assumption.
  destruct Hc1 as (Hmo & Hd & Hh & Hmi & Hs), Hc2 as (Hmo' & Hd' & Hh' & Hmi' & Hs').
  destruct (g1 tt) as [Y Mo D h mi se], (g2 tt) as [Y' Mo' D' h' mi' se'].
  cbn [Year Month Day Hour Minute Second] in *.
  assert (E : String.compare (spec_set_name (mktime Y Mo D h mi se))
                (spec_set_name (mktime Y' Mo' D' h' mi' se')) =
              Z.compare (time_key (mktime Y Mo D h mi se)) (time_key (mktime Y' Mo' D' h' mi' se'))).
  { unfold spec_set_name, time_key. cbn [Year Month Day Hour Minute Second].
    rewrite !string_compare_app by reflexivity.
    rewrite string_compare_refl, digits4_compare, !digits2_compare by lia.
    cbn [String.compare]. unfold Ascii.compare at 1. rewrite N.compare_refl.
    rewrite !compare_shift by lia.
    destruct (Z.compare Y Y'), (Z.compare Mo Mo'), (Z.compare D D'),
      (Z.compare h h'), (Z.compare mi mi'), (Z.compare se se'); reflexivity. }
  split; [exact E |]. unfold String.leb. rewrite E.
  destruct (Z.compare_spec (time_key (mktime Y Mo D h mi se)) (time_key (mktime Y' Mo' D' h' mi' se')));
    symmetry; [apply Z.leb_le | apply Z.leb_le | apply Z.leb_gt]; lia.
Qed.

(** Witness: the three sets of TestFindLatestSet, one second apart. *)
Lemma GenerateName_order_witness :
  String.compare (GenerateName (Scenario.at_time 2019 12 31 23 59 2))
                 (GenerateName (Scenario.at_time 2019 12 31 23 59 3)) =
    Z.compare (time_key (mktime 2019 12 31 23 59 2)) (time_key (mktime 2019 12 31 23 59 3)) /\
  String.leb (GenerateName (Scenario.at_time 2019 12 31 23 59 2))
             (GenerateName (Scenario.at_time 2019 12 31 23 59 3)) =
    Z.leb (time_key (mktime 2019 12 31 23 59 2)) (time_key (mktime 2019 12 31 23 59 3)).
Proof.
  apply (GenerateName_order (Scenario.at_time 2019 12 31 23 59 2) (Scenario.at_time 2019 12 31 23 59 3));
    unfold clock_fields_in_range; cbn; lia.
Defined.

End Names.

(** ** The set a run creates is the latest one *)
Module NewestSet.
Import Listing LatestSet Walk Steps.

Lemma latest_bounds dest s L n v :
  ReadDir dest s = Ok L -> tree s !! (dest ++ [n]) = Some v -> IsBackupSetName n = true ->
  exists name, FindLatestSet dest s = Ok name /\ String.leb n name = true /\
    IsBackupSetName name = true /\ exists w, tree s !! (dest ++ [name]) = Some w.
Proof.
  intros HR Hv Hn. rewrite (FindLatestSet_unfold _ _ _ HR).
  set (F := filter (fun info => IsBackupSetName (e_name info) = true) L).
  assert (HF : forall x, In x F <-> In x L /\ IsBackupSetName (e_name x) = true).
  { intros x. rewrite <- !list_elem_of_In. unfold F.
    rewrite list_elem_of_filter. tauto. }
  assert (Hin : In (mkentry n (is_dir v)) F).
  { apply HF. split; [| exact Hn]. apply (ReadDir_elem _ _ _ _ HR). simpl. eauto. }
  assert (Hs : StronglySorted name_le F)
    by (unfold F; apply filter_sorted; eapply ReadDir_sorted; eauto).
  destruct F as [|f F'] eqn:EF; [destruct Hin |].
  eexists. split; [reflexivity |]. split.
  - exact (last_is_max _ (mkentry String.EmptyString false) Hs _ Hin).
  - assert (Hl : In (List.last (f :: F') (mkentry String.EmptyString false)) (f :: F'))
      by (apply last_in; discriminate).
    apply HF in Hl as [HinL Hl]. split; [exact Hl |].
    apply (ReadDir_elem _ _ _ _ HR) in HinL as (w & Hw & _). eauto.
Qed.

Lemma CreateEmptySet_effect dest g s name s' :
  tree s !! dest = Some NDir -> CreateEmptySet dest g s = Done (name, None) s' ->
  name = GenerateName g /\ tree s' !! dest = Some NDir /\
  tree s' !! (dest ++ [name]) = Some NDir /\
  forall k v, tree s' !! k = Some v -> k = dest ++ [name] \/ tree s !! k = Some v.
Proof.
  intros Hd H. unfold CreateEmptySet in H. apply bind_Done in H as (e & s1 & Hm & H).
  unfold ret in H. injection H as <- -> <-.
  set (p := dest ++ [GenerateName g]) in *.
  assert (Hne : dest <> p).
  { intros E. apply (f_equal (@length string)) in E. unfold p in E.
    rewrite length_app in E. simpl in E. lia. }
  split; [reflexivity |].
  destruct (tree s !! p) as [[|i]|] eqn:Ep.
  - rewrite (SetCreation.MkdirAll_existing_dir p s Ep) in Hm. injection Hm as <-.
    split; [exact Hd |]. split; [exact Ep |]. auto.
  - unfold MkdirAll in Hm. destruct (length p); cbn [mkdir_all_aux] in Hm;
      rewrite Ep in Hm; discriminate Hm.
  - rewrite (MkdirAll_new p s (snoc_not_nil _ _) Ep
               ltac:(unfold p; rewrite parent_snoc; exact Hd)) in Hm.
    injection Hm as <-. cbn [tree set_tree].
    rewrite lookup_insert_ne by congruence. split; [exact Hd |].
    rewrite lookup_insert_eq. split; [reflexivity |].
    intros k v Hk. destruct (decide (k = p)) as [->|Hk']; [left; reflexivity |].
    right. rewrite lookup_insert_ne in Hk by congruence. exact Hk.
Qed.

(** When [CreateEmptySet] succeeds in an existing destination with a
    set-shaped name that is not smaller (in byte order) than any set
    already there, [FindLatestSet] on the destination then returns that
    new name: the next run hard-links against the set just made. With
    [GenerateName_order], that is every run at a later time than the
    existing sets. *)
Theorem FindLatestSet_after_CreateEmptySet (dest : path) (getTime : unit -> time)
    (s s' : fs) (name : string) :
  tree s !! dest = Some NDir ->
  CreateEmptySet dest getTime s = Done (name, None) s' ->
  IsBackupSetName name = true ->
  (forall n v, tree s !! (dest ++ [n]) = Some v -> IsBackupSetName n = true ->
     String.leb n name = true) ->
  FindLatestSet dest s' = Ok name.
Proof.
  intros Hd Hc Hset Hle.
  destruct (CreateEmptySet_effect _ _ _ _ _ Hd Hc) as (_ & Hd' & Hn' & Hold).
  destruct (ReadDir dest s') as [L|e] eqn:HR;
    [| unfold ReadDir in HR; rewrite Hd' in HR; discriminate HR].
  destruct (latest_bounds _ _ _ _ _ HR Hn' Hset) as (r & Hr & Hnr & Hrs & w & Hw).
  rewrite Hr. f_equal.
  destruct (Hold _ _ Hw) as [E|Hw0].
  - apply app_inv_head in E. injection E as E. exact E.
  - apply String.leb_antisym; [| exact Hnr].
    exact (Hle r w Hw0 Hrs).
Qed.

(** Witness: TestFindLatestSet's destination (sets at +1s, +3s, +2s and a
    folder that is not a set) and a fourth set at +4s. *)
Lemma FindLatestSet_after_CreateEmptySet_witness :
  FindLatestSet ["backups"]
    (final (CreateEmptySet ["backups"] (Scenario.at_time 2019 12 31 23 59 4) Scenario.find_latest_fs))
  = Ok (GenerateName (Scenario.at_time 2019 12 31 23 59 4)).
Proof.
  apply (FindLatestSet_after_CreateEmptySet ["backups"] (Scenario.at_time 2019 12 31 23 59 4)
           Scenario.find_latest_fs); [vm_compute; reflexivity | vm_compute; reflexivity
                                      | vm_compute; reflexivity |].
  intros n v Hv Hn. apply elem_of_map_to_list in Hv. vm_compute in Hv.
  repeat (apply elem_of_cons in Hv as [Hv|Hv];
          [first [discriminate Hv | injection Hv as -> ->; vm_compute in Hn |- *;
                  first [reflexivity | discriminate Hn]] |]).
  apply elem_of_nil in Hv. destruct Hv.
Defined.

End NewestSet.

(** ** The earlier versions *)
Module Legacy.
Import Listing Walk Steps CopyWalk Rerun Outcomes.

(** When the destination holds no backup set once [os.MkdirAll] has made
    sure it exists, [Backup] does exactly what the earlier [Backup] of
    [backup.go.go] does (the same state and result, or the same
    [log.Fatal]): the hard-link step only matters once a set exists. *)
Theorem Backup_without_sets_as_before (source dest : path) (getTime : unit -> time) (s : fs) :
  (forall s1, MkdirAll dest s = Done None s1 -> FindLatestSet dest s1 = Ok String.EmptyString) ->
  Backup source dest getTime s = BackupV0.Backup source dest getTime s.
Proof.
  intros H. unfold Backup, BackupV0.Backup.
  destruct (MkdirAll dest s) as [e s1|s1|s1] eqn:E.
  - rewrite (bind_step _ _ _ _ _ E), (bind_step _ _ _ _ _ E).
    destruct e as [e|]; [reflexivity |]. cbv beta iota.
    rewrite (bind_step _ _ _ _ _ (get_step s1)). cbv beta. rewrite (H s1 eq_refl).
    cbv iota. reflexivity.
  - unfold bind. rewrite E. reflexivity.
  - unfold bind. rewrite E. reflexivity.
Qed.

(** Witness: the destination of TestBackup, holding no set yet. *)
Lemma Backup_without_sets_as_before_witness :
  Backup ["src"] ["backups"] Scenario.t1 Scenario.linkme_fs =
  BackupV0.Backup ["src"] ["backups"] Scenario.t1 Scenario.linkme_fs.
Proof.
  apply Backup_without_sets_as_before.
  intros s1 Hm. vm_compute in Hm. injection Hm as <-. vm_compute. reflexivity.
Defined.

Lemma make_dirs_spec dst L : forall s s',
  DraftCopyFolder.make_dirs dst L s = Done tt s' ->
  data s' = data s /\ noread s' = noread s /\ next_ino s' = next_ino s /\
  forall k v, tree s' !! k = Some v <->
    tree s !! k = Some v \/
    (v = NDir /\ exists it, In it L /\ e_dir it = true /\ k = dst ++ [e_name it]).
Proof.
  induction L as [|it L IH]; intros s s' H; cbn [DraftCopyFolder.make_dirs] in H.
  - unfold ret in H. injection H as <-. split; [reflexivity |]. split; [reflexivity |].
    split; [reflexivity |]. intros k v. split; [auto |].
    intros [Hk | (_ & it & [] & _)]. exact Hk.
  - destruct (e_dir it) eqn:Ed.
    + apply bind_Done in H as (e & s1 & Hm & H).
      destruct e; [unfold fatal in H; discriminate H |].
      apply Mkdir_none in Hm as (_ & Hn & _ & ->).
      destruct (IH _ _ H) as (Hd & Hr & Hi & Ht). cbn [data noread next_ino tree set_tree] in *.
      split; [exact Hd |]. split; [exact Hr |]. split; [exact Hi |].
      intros k v. rewrite Ht. destruct (decide (k = dst ++ [e_name it])) as [->|Hk].
      * rewrite lookup_insert_eq, Hn. split.
        -- intros [[= <-] | (-> & it0 & Hin & Hd0 & Hk)].
           ++ right. split; [reflexivity |]. exists it. split; [left; reflexivity | auto].
           ++ right. split; [reflexivity |]. exists it0. split; [right; exact Hin | auto].
        -- intros [Hk | (-> & _)]; [discriminate Hk | left; reflexivity].
      * rewrite lookup_insert_ne by congruence. split.
        -- intros [Hk' | (-> & it0 & Hin & Hd0 & Hk')]; [left; exact Hk' |].
           right. split; [reflexivity |]. exists it0. split; [right; exact Hin | auto].
        -- intros [Hk' | (-> & it0 & [<- | Hin] & Hd0 & Hk')]; [left; exact Hk' | congruence |].
           right. split; [reflexivity |]. exists it0. auto.
    + destruct (IH _ _ H) as (Hd & Hr & Hi & Ht).
      split; [exact Hd |]. split; [exact Hr |]. split; [exact Hi |].
      intros k v. rewrite Ht. split.
      * intros [Hk | (-> & it0 & Hin & Hd0 & Hk)]; [left; exact Hk |].
        right. split; [reflexivity |]. exists it0. split; [right; exact Hin | auto].
      * intros [Hk | (-> & it0 & [<- | Hin] & Hd0 & Hk)]; [left; exact Hk | congruence |].
        right. split; [reflexivity |]. exists it0. auto.
Qed.

(** The draft [CopyFolder] left in [copy_folder.go], when it returns, has
    only added an empty directory [dest/n] for each subfolder [n] of
    [source]: no file is created, copied or changed, and nothing below
    those directories is made. *)
Theorem DraftCopyFolder_only_makes_top_dirs (source dest : path) (s s' : fs) :
  DraftCopyFolder.CopyFolder source dest s = Done tt s' ->
  data s' = data s /\ next_ino s' = next_ino s /\
  forall k v, tree s' !! k = Some v <->
    tree s !! k = Some v \/
    (v = NDir /\ exists n, k = dest ++ [n] /\ tree s !! (source ++ [n]) = Some NDir).
Proof.
  intros H. unfold DraftCopyFolder.CopyFolder in H.
  rewrite (bind_step _ _ _ _ _ (get_step s)) in H. cbv beta in H.
  destruct (ReadDir source s) as [L|err] eqn:HR; [| unfold fatal in H; discriminate H].
  destruct (make_dirs_spec _ _ _ _ H) as (Hd & _ & Hi & Ht).
  split; [exact Hd |]. split; [exact Hi |]. intros k v. rewrite Ht.
  split; intros [Hk | (-> & Hex)]; try (left; exact Hk); right; split; try reflexivity.
  - destruct Hex as (it & Hin & Hdir & ->). exists (e_name it). split; [reflexivity |].
    apply (ReadDir_elem _ _ _ _ HR) in Hin as (w & Hw & Hdw).
    rewrite Hw. destruct w; [reflexivity | rewrite Hdir in Hdw; discriminate Hdw].
  - destruct Hex as (n & -> & Hn). exists (mkentry n true).
    split; [| split; reflexivity].
    apply (ReadDir_elem _ _ _ _ HR). simpl. exists NDir. auto.
Qed.

(** Witness: TestHardLinksSecondBackup's source into [backups]. *)
Lemma DraftCopyFolder_only_makes_top_dirs_witness :
  let s := Scenario.deep_fs in
  let s' := final (DraftCopyFolder.CopyFolder ["src"] ["backups"] Scenario.deep_fs) in
  data s' = data s /\ next_ino s' = next_ino s /\
  forall k v, tree s' !! k = Some v <->
    tree s !! k = Some v \/
    (v = NDir /\ exists n, k = ["backups"] ++ [n] /\ tree s !! (["src"] ++ [n]) = Some NDir).
Proof.
  intros s s'. apply DraftCopyFolder_only_makes_top_dirs. vm_compute. reflexivity.
Defined.







End Legacy.


Module Helpers.
Import TestHelpers.

Lemma readContents_ok p s c :
  readContents p s = Ok c <-> exists i, tree s !! p = Some (NFile i) /\ (i ∉ noread s) /\ c = contents i s.
Proof.
  unfold readContents, Open. split.
  - destruct (tree s !! p) as [[|i]|]; try discriminate.
    case_decide; [discriminate |]. intros [= <-]. eauto.
  - intros (i & Hi & Hn & ->). rewrite Hi, decide_False by exact Hn. reflexivity.
Qed.

(** X16: [FileContentsMatches file1Path file2Path] returns a nil error
    exactly when both paths are readable regular files, and returns [true]
    exactly when it returns a nil error and both files hold the same
    contents. *)
Theorem FileContentsMatches_spec (file1Path file2Path : path) (s : fs) :
  ((FileContentsMatches file1Path file2Path s).2 = None <->
     (exists i, tree s !! file1Path = Some (NFile i) /\ i ∉ noread s) /\
     (exists j, tree s !! file2Path = Some (NFile j) /\ j ∉ noread s)) /\
  ((FileContentsMatches file1Path file2Path s).1 = true <->
     (FileContentsMatches file1Path file2Path s).2 = None /\
     file_at file1Path s = file_at file2Path s).
Proof.
  assert (R : forall p, (exists i, tree s !! p = Some (NFile i) /\ i ∉ noread s) ->
                exists c, readContents p s = Ok c /\ file_at p s = Some c).
  { intros p (i & Hi & Hn). exists (contents i s). split.
    - apply readContents_ok. eauto.
    - unfold file_at. rewrite Hi. reflexivity. }
  unfold FileContentsMatches.
  destruct (readContents file1Path s) as [c1|e1] eqn:E1.
  - destruct (readContents file2Path s) as [c2|e2] eqn:E2.
    + apply readContents_ok in E1 as (i & Hi & Hni & ->).
      apply readContents_ok in E2 as (j & Hj & Hnj & ->). cbn [fst snd].
      split; [split; [intros _; split; eauto | reflexivity] |].
      unfold file_at. rewrite Hi, Hj, String.eqb_eq. split.
      * intros ->. auto.
      * intros [_ E]. injection E as E. exact E.
    + cbn [fst snd]. split; split; try discriminate.
      * intros [_ H2]. destruct (R _ H2) as (c & Hc & _). congruence.
      * intros [H _]. discriminate H.
  - cbn [fst snd]. split; split; try discriminate.
    + intros [H1 _]. destruct (R _ H1) as (c & Hc & _). congruence.
    + intros [H _]. discriminate H.
Qed.

End Helpers.
